(** * bluesky.callbacks.fitting: LiveFit, center_of_mass and PeakStats

    A shallow embedding of [src/bluesky/callbacks/fitting.py].

    - Python objects are records, Python dicts are [gmap string _].
    - A method is a computation in the monad [py S]: it reads and writes the
      object of type [S] and either returns or raises.  A raised exception
      keeps the mutations made before it, as in Python.
    - numpy's arrays are lists over a type of scalars, and the functions of
      numpy that the module calls are an interface ([Np.Ufunc],
      [Np.Numpy]): what is proved over the interface holds whatever these
      functions compute, rounding, overflow, inf and nan included.  Two
      instances are given: exact arithmetic on the rationals, and the scalar
      arithmetic of float64 (IEEE 754 binary64, [PrimFloat]). *)

From Stdlib Require Import ZArith QArith Qabs Lqa.
From Stdlib Require PrimFloat.
From stdpp Require Import gmap strings list fin_maps.

Set Default Proof Using "Type".

(** ** Python exceptions and the method monad *)

Inductive exn : Set :=
  | KeyError
  | ValueError
  | AttributeError
  | ZeroDivisionError.

Inductive outcome (A : Type) : Type :=
  | Ret (a : A)
  | Raise (e : exn).
Arguments Ret {A} a.
Arguments Raise {A} e.

Definition py (S A : Type) : Type := S → outcome A * S.

Definition py_ret {S A} (a : A) : py S A := λ s, (Ret a, s).
Definition py_raise {S A} (e : exn) : py S A := λ s, (Raise e, s).
Definition py_bind {S A B} (m : py S A) (k : A → py S B) : py S B :=
  λ s, match m s with
       | (Ret a, s') => k a s'
       | (Raise e, s') => (Raise e, s')
       end.
Definition py_get {S} : py S S := λ s, (Ret s, s).
Definition py_modify {S} (f : S → S) : py S unit := λ s, (Ret tt, f s).

#[global] Instance py_mret {S} : MRet (py S) := λ A, py_ret.
#[global] Instance py_mbind {S} : MBind (py S) := λ A B k m, py_bind m k.

(** [d[k]] on a dict: raises KeyError when the key is absent. *)
Definition getitem {S V} (d : gmap string V) (k : string) : py S V :=
  match d !! k with
  | Some v => py_ret v
  | None => py_raise KeyError
  end.

(** [for x in l: body(x)] over a snapshot of the items. *)
Fixpoint for_each {S A} (l : list A) (body : A → py S unit) : py S unit :=
  match l with
  | [] => py_ret tt
  | a :: l' => body a;; for_each l' body
  end.

(** Python's [a % b] on ints: the sign follows the divisor, as [Z.modulo]
    does, and a zero divisor raises. *)
Definition py_mod {S} (a b : Z) : py S Z :=
  if decide (b = 0%Z) then py_raise ZeroDivisionError
  else py_ret (a `mod` b)%Z.

(** ** LiveFit *)

Module LiveFit.
Section WithTypes.

(** Scalars carried by Event documents, and the opaque lmfit.ModelResult. *)
Context {Scalar FitResult : Type}.

(** What [model.fit] receives by keyword: the series of an independent
    variable, or a scalar initial guess. *)
Inductive kwarg : Type :=
  | KSeries (xs : list Scalar)
  | KScalar (x : Scalar).

(** The part of lmfit.Model that LiveFit uses. *)
Record Model : Type := {
  param_names : list string;
  model_independent_vars : list string;
  fit : list Scalar → gmap string kwarg → FitResult;
}.

(** What the coordinator does to the outside, in order: calls of
    [model.fit] with their arguments, and warnings with the [N] of their
    message. *)
Inductive effect : Type :=
  | EFit (ys : list Scalar) (kwargs : gmap string kwarg)
  | EWarn (N : nat).

(** The attributes of a LiveFit object.  [effects] is not an attribute: it
    records the calls above. *)
Record self : Type := {
  ydata : list Scalar;
  independent_vars_data : gmap string (list Scalar);
  stale : bool;                          (* self.__stale *)
  result : option FitResult;
  _model : Model;
  y : string;
  _independent_vars : gmap string string;
  init_guess : gmap string Scalar;
  update_every : option Z;
  effects : list effect;
}.

Definition set_ydata (v : list Scalar) (s : self) : self :=
  {| ydata := v; independent_vars_data := independent_vars_data s;
     stale := stale s; result := result s; _model := _model s; y := y s;
     _independent_vars := _independent_vars s; init_guess := init_guess s;
     update_every := update_every s; effects := effects s |}.
Definition set_independent_vars_data (v : gmap string (list Scalar)) (s : self) : self :=
  {| ydata := ydata s; independent_vars_data := v;
     stale := stale s; result := result s; _model := _model s; y := y s;
     _independent_vars := _independent_vars s; init_guess := init_guess s;
     update_every := update_every s; effects := effects s |}.
Definition set_stale (v : bool) (s : self) : self :=
  {| ydata := ydata s; independent_vars_data := independent_vars_data s;
     stale := v; result := result s; _model := _model s; y := y s;
     _independent_vars := _independent_vars s; init_guess := init_guess s;
     update_every := update_every s; effects := effects s |}.
Definition set_result (v : option FitResult) (s : self) : self :=
  {| ydata := ydata s; independent_vars_data := independent_vars_data s;
     stale := stale s; result := v; _model := _model s; y := y s;
     _independent_vars := _independent_vars s; init_guess := init_guess s;
     update_every := update_every s; effects := effects s |}.
Definition set__independent_vars (v : gmap string string) (s : self) : self :=
  {| ydata := ydata s; independent_vars_data := independent_vars_data s;
     stale := stale s; result := result s; _model := _model s; y := y s;
     _independent_vars := v; init_guess := init_guess s;
     update_every := update_every s; effects := effects s |}.
Definition emit (e : effect) (s : self) : self :=
  {| ydata := ydata s; independent_vars_data := independent_vars_data s;
     stale := stale s; result := result s; _model := _model s; y := y s;
     _independent_vars := _independent_vars s; init_guess := init_guess s;
     update_every := update_every s; effects := effects s ++ [e] |}.

(** [_reset], lines 66-71. *)
Definition _reset : py self unit :=
  py_modify (set_result None);;
  py_modify (set_stale false);;
  py_modify (set_ydata []);;
  py_modify (λ s, set_independent_vars_data ((λ _, []) <$> independent_vars_data s) s).

(** The setter of the [independent_vars] property, lines 54-64. *)
Definition set_independent_vars (val : gmap string string) : py self unit :=
  s ← py_get;
  if decide (dom val ≠ list_to_set (model_independent_vars (_model s)))
   then py_raise ValueError
   else
     py_modify (set__independent_vars val);;
     py_modify (set_independent_vars_data ∅);;
     py_modify (set_independent_vars_data ((λ _, []) <$> val));;
     _reset.

(** [__init__], lines 31-43.  The setter runs on the object under
    construction; when it raises there is no object. *)
Definition __init__ (model : Model) (y0 : string) (independent_vars : gmap string string)
    (init_guess0 : option (gmap string Scalar)) (update_every0 : option Z) : outcome self :=
  let blank :=
    {| ydata := []; independent_vars_data := ∅; stale := false; result := None;
       _model := model; y := y0; _independent_vars := ∅;
       init_guess := default ∅ init_guess0;
       update_every := update_every0; effects := [] |} in
  match set_independent_vars independent_vars blank with
  | (Ret _, s) => Ret s
  | (Raise e, _) => Raise e
  end.

(** [update_caches], lines 104-107. *)
Definition update_caches (yv : Scalar) (independent_vars : gmap string Scalar) : py self unit :=
  py_modify (λ s, set_ydata (ydata s ++ [yv]) s);;
  s ← py_get;
  for_each (map_to_list (independent_vars_data s)) (λ kv,
     x ← getitem independent_vars kv.1;
     py_modify (λ s, set_independent_vars_data
                       (alter (λ v, v ++ [x]) kv.1 (independent_vars_data s)) s)).

(** The keyword arguments built in [update_fit], lines 115-117: the later
    [update] wins on a shared key. *)
Definition kwargs_of (s : self) : gmap string kwarg :=
  (KScalar <$> init_guess s) ∪ (KSeries <$> independent_vars_data s).

(** [update_fit], lines 109-119. *)
Definition update_fit : py self unit :=
  s ← py_get;
  let N := length (param_names (_model s)) in
  if decide (length (ydata s) < N) then
     py_modify (emit (EWarn N))
   else
     let kwargs := kwargs_of s in
     py_modify (emit (EFit (ydata s) kwargs));;
     py_modify (set_result (Some (fit (_model s) (ydata s) kwargs)));;
     py_modify (set_stale false).

(** The dict comprehension of line 81: one failing lookup raises KeyError
    before anything is stored. *)
Definition lookup_fields (data : gmap string Scalar) (vars : gmap string string)
    : py self (gmap string Scalar) :=
  if decide (map_Forall (λ _ v, is_Some (data !! v)) vars)
  then py_ret (omap (λ v, data !! v) vars)
  else py_raise KeyError.

(** [event], lines 77-96, on [doc['data']]. *)
Definition event (data : gmap string Scalar) : py self unit :=
  s ← py_get;
  match data !! y s with
  | None => py_ret tt
  | Some yv =>
     idv ← lookup_fields data (_independent_vars s);
     update_caches yv idv;;
     py_modify (set_stale true);;
     s ← py_get;
     match update_every s with
     | None => py_ret tt
     | Some every =>
       let i := length (ydata s) in
       let N := length (param_names (_model s)) in
       if decide (i < N) then py_ret tt
       else if decide (i = N) then update_fit
       else
         r ← py_mod (Z.of_nat i - 1) every;
         if decide (r = 0%Z) then update_fit else py_ret tt
     end
  end.

(** [start], lines 73-75. *)
Definition start : py self unit := _reset.

(** [stop], lines 98-102. *)
Definition stop : py self unit :=
  s ← py_get;
  if stale s then update_fit else py_ret tt.

(** Modelled from the spec: the document-stream deliverer, which is not part
    of the sources (sections 2, 5 and 6): the documents of a run reach the
    coordinator one at a time, in arrival order, each transition running to
    completion; an exception ends the delivery.  [CallbackBase.start],
    [event] and [stop], called through [super()], are plumbing outside the
    sources as well and leave the coordinator alone. *)
Inductive document : Type :=
  | Start
  | Event (data : gmap string Scalar)
  | Stop.

Definition dispatch (doc : document) : py self unit :=
  match doc with
  | Start => start
  | Event data => event data
  | Stop => stop
  end.

Definition deliver (docs : list document) : py self unit :=
  for_each docs dispatch.

(** ** Notions used to state the properties *)

Implicit Types (s : self) (data : gmap string Scalar).

(** [N = len(self.model.param_names)]. *)
Definition N_of s : nat := length (param_names (_model s)).

Definition push (x : Scalar) (v : list Scalar) : list Scalar := v ++ [x].

(** Every bound independent variable has its series, and nothing else has. *)
Definition bound s : Prop :=
  dom (independent_vars_data s) = dom (_independent_vars s).

(** The series have the length of [ydata]. *)
Definition aligned s : Prop :=
  ∀ k v, independent_vars_data s !! k = Some v → length v = length (ydata s).

(** The document carries every field bound to an independent variable. *)
Definition present data s : Prop :=
  map_Forall (λ _ v, is_Some (data !! v)) (_independent_vars s).

(** A document that has the dependent field has the bound fields too. *)
Definition well_formed s data : Prop :=
  is_Some (data !! y s) → present data s.

Definition fields data s : gmap string Scalar :=
  omap (λ v, data !! v) (_independent_vars s).

(** The object once a sample has been stored in every series. *)
Definition stored (yv : Scalar) (idv : gmap string Scalar) s : self :=
  set_independent_vars_data
    (map_zip_with (λ v x, push x v) (independent_vars_data s) idv)
    (set_ydata (ydata s ++ [yv]) s).

(** The object after a call of [model.fit] on what it holds. *)
Definition fitted s : self :=
  set_stale false
    (set_result (Some (fit (_model s) (ydata s) (kwargs_of s)))
       (emit (EFit (ydata s) (kwargs_of s)) s)).

(** The object after [_reset]. *)
Definition cleared s : self :=
  set_independent_vars_data ((λ _, []) <$> independent_vars_data s)
    (set_ydata [] (set_stale false (set_result None s))).

(** Lines 88-95 of [event], after the sample is stored. *)
Definition cadence : py self unit :=
  s ← py_get;
  match update_every s with
  | None => py_ret tt
  | Some every =>
    let i := length (ydata s) in
    let N := length (param_names (_model s)) in
    if decide (i < N) then py_ret tt
    else if decide (i = N) then update_fit
    else
      r ← py_mod (Z.of_nat i - 1) every;
      if decide (r = 0%Z) then update_fit else py_ret tt
  end.

(** What the cadence policy decides at sample count [i]: fit or not, or the
    exception of the modulo. *)
Definition decision (every : option Z) (N i : nat) : outcome bool :=
  match every with
  | None => Ret false
  | Some k =>
    if decide (i < N) then Ret false
    else if decide (i = N) then Ret true
    else if decide (k = 0%Z) then Raise ZeroDivisionError
    else Ret (bool_decide (((Z.of_nat i - 1) `mod` k)%Z = 0%Z))
  end.

(** The object after [event], whether it returned or raised. *)
Definition after_event s data : self :=
  match data !! y s with
  | None => s
  | Some yv =>
    if decide (present data s) then
      let s1 := set_stale true (stored yv (fields data s) s) in
      match decision (update_every s1) (N_of s1) (length (ydata s1)) with
      | Ret true => fitted s1
      | _ => s1
      end
    else s
  end.

(** The dependent samples of a list of event documents, and the samples of
    field [v] in the documents that have the dependent field. *)
Definition samples (yname : string) (evs : list (gmap string Scalar)) : list Scalar :=
  omap (λ data, data !! yname) evs.

Definition column (yname v : string) (evs : list (gmap string Scalar)) : list Scalar :=
  omap (λ data, if data !! yname is Some _ then data !! v else None) evs.

(** The sample counts of the calls of [model.fit], and the warnings. *)
Definition fit_counts (t : list effect) : list nat :=
  omap (λ e, match e with EFit ys _ => Some (length ys) | EWarn _ => None end) t.

Definition warnings (t : list effect) : list nat :=
  omap (λ e, match e with EFit _ _ => None | EWarn N => Some N end) t.

(** The cadence as the code has it: at count [N], and above [N] at the counts
    [i] with [(i - 1) % every = 0]. *)
Definition due (N : nat) (every : Z) (i : nat) : bool :=
  bool_decide (i = N)
  || bool_decide (N < i) && bool_decide (((Z.of_nat i - 1) `mod` every)%Z = 0%Z).

(** The cadence of the specification: at the counts N, N+k, N+2k, ... *)
Definition due_every_k_from_N (N : nat) (every : Z) (i : nat) : bool :=
  bool_decide (N ≤ i) && bool_decide (((Z.of_nat i - Z.of_nat N) `mod` every)%Z = 0%Z).

(** The policy says "fit now". *)
Definition fit_now (every : option Z) (N i : nat) : bool :=
  match decision every N i with
  | Ret true => true
  | _ => false
  end.

Definition same_config s s' : Prop :=
  _model s' = _model s ∧ y s' = y s ∧ _independent_vars s' = _independent_vars s
  ∧ init_guess s' = init_guess s ∧ update_every s' = update_every s.

(** The stored result is the fit of the samples held, unless samples are
    waiting ([stale]) or there is none. *)
Definition fresh s : Prop :=
  stale s = false →
  ydata s = [] ∨ result s = Some (fit (_model s) (ydata s) (kwargs_of s)).

(** The series handed to a call of [model.fit] have the length of the
    dependent samples handed with them. *)
Definition paired (e : effect) : Prop :=
  match e with
  | EFit ys kwargs => ∀ k xs, kwargs !! k = Some (KSeries xs) → length xs = length ys
  | EWarn _ => True
  end.

(** The public calls on a coordinator, and the object seen after a
    sequence of them; a caller may catch an exception and go on. *)
Inductive call : Type :=
  | CStart
  | CEvent (data : gmap string Scalar)
  | CStop
  | CBind (val : gmap string string).

Definition perform (c : call) : py self unit :=
  match c with
  | CStart => start
  | CEvent data => event data
  | CStop => stop
  | CBind val => set_independent_vars val
  end.

Definition observe (calls : list call) s : self :=
  foldl (λ s c, (perform c s).2) s calls.

End WithTypes.
Arguments Model : clear implicits.
Arguments document : clear implicits.
Arguments call : clear implicits.
Arguments self : clear implicits.
Arguments kwarg : clear implicits.
Arguments effect : clear implicits.
End LiveFit.

(** ** numpy on one-dimensional arrays *)

Module Np.

(** The scalar arithmetic of numpy, which the module applies elementwise to
    arrays, and [np.sum], over a type [F] of numpy scalars.  [of_nat i] is
    the scalar of the Python int [i], as in [grid.astype(float)] and in the
    literal of [/ 2]; [greater a b] is [a > b]. *)
Class Ufunc (F : Type) : Type := {
  of_nat : nat → F;
  add : F → F → F;
  subtract : F → F → F;
  multiply : F → F → F;
  divide : F → F → F;
  negative : F → F;
  abs : F → F;
  greater : F → F → bool;
  sum : list F → F;
}.

(** The reductions and the interpolation that [_calc_stats] calls.  Of
    [np.argmin] and [np.argmax] the embedding uses two facts: they raise
    ValueError on an empty array, and on any other they return an index of
    the array, whatever its entries (nan included).  [max] and [min] are
    called on non-empty arrays only. *)
Class Numpy (F : Type) : Type := {
  ufunc : Ufunc F;
  max : list F → F;
  min : list F → F;
  argmin : list F → outcome nat;
  argmax : list F → outcome nat;
  interp : F → list F → list F → F;
  argmin_nil : argmin [] = Raise ValueError;
  argmin_cons v a : ∃ i, argmin (v :: a) = Ret i ∧ (i < S (length a))%nat;
  argmax_nil : argmax [] = Raise ValueError;
  argmax_cons v a : ∃ i, argmax (v :: a) = Ret i ∧ (i < S (length a))%nat;
}.
#[global] Existing Instance ufunc.

Section Arrays.
Context {F : Type} {U : Ufunc F}.

(** [np.mean]: the sum over the number of entries. *)
Definition mean (a : list F) : F := divide (sum a) (of_nat (length a)).

(** [np.diff] and [np.arange(n)]. *)
Definition diff (a : list F) : list F := zip_with subtract (tail a) a.

Definition arange (n : nat) : list F := of_nat <$> seq 0 n.

(** [a[i]] where the source has made sure that [i] is in range. *)
Definition item (a : list F) (i : nat) : F := nth i a (of_nat 0).

(** [(y > mid).astype(np.int)], with [np.int] the builtin int as in the
    NumPy releases that have it. *)
Definition above (mid : F) (y : list F) : list Z :=
  (λ v, if greater v mid then 1%Z else 0%Z) <$> y.

End Arrays.

(** [a[:stop]] and [a[start:]] with Python's negative bounds. *)
Definition slice_to {A} (stop : Z) (a : list A) : list A :=
  if decide (0 ≤ stop)%Z then take (Z.to_nat stop) a
  else take (length a - Z.to_nat (- stop)) a.

Definition slice_from {A} (start : Z) (a : list A) : list A :=
  if decide (0 ≤ start)%Z then drop (Z.to_nat start) a
  else drop (length a - Z.to_nat (- start)) a.

(** [np.where(np.diff(a))[0]] on an array of ints: the indices [i] where
    [a[i]] and [a[i+1]] differ. *)
Definition diff_int (a : list Z) : list Z := zip_with Z.sub (tail a) a.

Fixpoint where_nonzero (a : list Z) (i : nat) : list nat :=
  match a with
  | [] => []
  | v :: a' => if decide (v = 0%Z) then where_nonzero a' (S i)
               else i :: where_nonzero a' (S i)
  end.

(** *** Exact arithmetic

    The interface over the rationals: finite readings, every operation
    exact.  A quotient by zero is 0 here, where numpy gives inf or nan with
    a RuntimeWarning; what is stated at this instance does not rest on such
    a quotient. *)
Module Exact.
Local Open Scope Q_scope.

Definition Qltb (a b : Q) : bool := negb (Qle_bool b a).

Definition sum (a : list Q) : Q := foldl Qplus 0 a.

(** [np.argmin] and [np.argmax]: the first index of the extremum; ValueError
    on an empty array. *)
Fixpoint argbest (better : Q → Q → bool) (a : list Q) (i best : nat) (v : Q) : nat :=
  match a with
  | [] => best
  | w :: a' => if better w v then argbest better a' (S i) i w
               else argbest better a' (S i) best v
  end.

Definition argmin (a : list Q) : outcome nat :=
  match a with
  | [] => Raise ValueError
  | v :: a' => Ret (argbest Qltb a' 1%nat 0%nat v)
  end.

Definition argmax (a : list Q) : outcome nat :=
  match a with
  | [] => Raise ValueError
  | v :: a' => Ret (argbest (λ w v, Qltb v w) a' 1%nat 0%nat v)
  end.

(** [np.min] and [np.max] of an array known to be non-empty. *)
Definition min (a : list Q) : Q :=
  match a with
  | [] => 0
  | v :: a' => foldl (λ m w, if Qltb w m then w else m) v a'
  end.

Definition max (a : list Q) : Q :=
  match a with
  | [] => 0
  | v :: a' => foldl (λ m w, if Qltb m w then w else m) v a'
  end.

(** [np.interp(v, xp, fp)] for one [v], with non-empty [xp] and [fp] of the
    same length, [xp] increasing: [fp[0]] to the left of [xp[0]], the last
    [fp] to the right of the last [xp], else the value on the segment that
    holds [v]. *)
Fixpoint interp_from (v : Q) (xp fp : list Q) : Q :=
  match xp, fp with
  | x0 :: ((x1 :: _) as xp'), f0 :: ((f1 :: _) as fp') =>
    if Qltb v x1 then
      if Qeq_bool x0 v then f0
      else (f1 - f0) / (x1 - x0) * (v - x0) + f0
    else interp_from v xp' fp'
  | _, f0 :: _ => f0
  | _, [] => 0
  end.

Definition interp (v : Q) (xp fp : list Q) : Q :=
  if Qltb v (nth 0 xp 0) then nth 0 fp 0
  else if Qltb (nth (length xp - 1) xp 0) v then nth (length fp - 1) fp 0
  else interp_from v xp fp.

End Exact.

Definition exact_ufunc : Ufunc Q :=
  {| of_nat := λ n, inject_Z (Z.of_nat n);
     add := Qplus;
     subtract := Qminus;
     multiply := Qmult;
     divide := Qdiv;
     negative := Qopp;
     abs := Qabs;
     greater := λ a b, Exact.Qltb b a;
     sum := Exact.sum |}.

#[global] Instance exact : Numpy Q.
Proof.
  assert (∀ better (a : list Q) i best v,
            (best < i)%nat → (Exact.argbest better a i best v < i + length a)%nat)
    as argbest_lt.
  { intros better a. induction a as [|w a IH]; intros i best v Hlt; cbn; [lia|].
    destruct (better w v).
    - specialize (IH (S i) i w). lia.
    - specialize (IH (S i) best v). lia. }
  refine {| ufunc := exact_ufunc;
            max := Exact.max;
            min := Exact.min;
            argmin := Exact.argmin;
            argmax := Exact.argmax;
            interp := Exact.interp |}.
  - reflexivity.
  - intros v a. eexists. split; [reflexivity|]. apply (argbest_lt _ a 1%nat 0%nat v). lia.
  - reflexivity.
  - intros v a. eexists. split; [reflexivity|]. apply (argbest_lt _ a 1%nat 0%nat v). lia.
Defined.

(** *** float64

    The scalar arithmetic of IEEE 754 binary64, which is numpy's float64.
    [sum] adds from left to right, starting from 0.0.  The order in which
    [np.sum] adds depends on the length of the array (long arrays are summed
    pairwise); this instance is used on arrays where the order does not
    matter: every partial sum is exact, or one entry only is not zero.
    [of_nat] is exact for the lengths an array can have. *)
Module Float64.

Fixpoint of_nat (n : nat) : PrimFloat.float :=
  match n with
  | O => PrimFloat.zero
  | S n' => PrimFloat.add (of_nat n') PrimFloat.one
  end.

Definition sum (a : list PrimFloat.float) : PrimFloat.float :=
  foldl PrimFloat.add PrimFloat.zero a.

End Float64.

#[global] Instance float64 : Ufunc PrimFloat.float :=
  {| of_nat := Float64.of_nat;
     add := PrimFloat.add;
     subtract := PrimFloat.sub;
     multiply := PrimFloat.mul;
     divide := PrimFloat.div;
     negative := PrimFloat.opp;
     abs := PrimFloat.abs;
     greater := λ a b, PrimFloat.ltb b a;
     sum := Float64.sum |}.

End Np.

(** ** center_of_mass and PeakStats *)

Module PeakStats.

Section CenterOfMass.
Context {F : Type} {U : Np.Ufunc F}.

(** [center_of_mass], lines 126-172, on a one-dimensional [input] with
    [labels] and [index] left to None, which is how PeakStats calls it:
    [np.sum(input, None, None)] is the sum of all the entries, there is one
    grid, [arange(len(input))], and the result is a 1-tuple. *)
Definition center_of_mass (input : list F) : list F :=
  let normalizer := Np.sum input in
  let grids := [Np.arange (length input)] in
  let results :=
    (λ grid, Np.divide (Np.sum (zip_with Np.multiply input grid)) normalizer)
    <$> grids in
  results.

End CenterOfMass.

Section WithNumpy.
Context {F : Type} {np : Np.Numpy F}.

(** The values held by the stats fields. *)
Inductive value : Type :=
  | VNone
  | VPair (x y : F)                (* a tuple (x, y) *)
  | VNum (v : F)
  | VArr (a : list F)
  | VLine (m b : F).               (* {"m": m, "b": b} *)

(** The crossing found between the samples [cr] and [cr + 1], lines
    262-268. *)
Definition crossing_at (x y : list F) (mid : F) (cr : nat) : F :=
  let _x := take 2 (drop cr x) in
  let _y := (λ v, Np.subtract v mid) <$> take 2 (drop cr y) in
  let dx := Np.item (Np.diff _x) 0 in
  let dy := Np.item (Np.diff _y) 0 in
  let m := Np.divide dy dx in
  Np.add (Np.divide (Np.negative (Np.item _y 0)) m) (Np.item _x 0).

(** The line of the background removal, lines 244-251. *)
Definition edge_line (x y : list F) (edge_count : Z) : F * F :=
  let left_x := Np.mean (Np.slice_to edge_count x) in
  let left_y := Np.mean (Np.slice_to edge_count y) in
  let right_x := Np.mean (Np.slice_from (- edge_count) x) in
  let right_y := Np.mean (Np.slice_from (- edge_count) y) in
  let m := Np.divide (Np.subtract right_y left_y) (Np.subtract right_x left_x) in
  let b := Np.subtract left_y (Np.multiply m left_x) in
  (m, b).

(** [_calc_stats], lines 241-280, for [x] and [y] of the same length.  The
    namedtuple it returns has the keys of [fields] as field names and their
    values as defaults: it is [fields] as the function leaves it. *)
Definition _calc_stats (x y : list F) (fields : gmap string value)
    (edge_count : option Z) : outcome (gmap string value) :=
  let '(y, fields) :=
    match edge_count with
    | Some edge_count =>
      let '(m, b) := edge_line x y edge_count in
      (zip_with (λ yi xi, Np.subtract yi (Np.add (Np.multiply m xi) b)) y x,
       <["lin_bkg" := VLine m b]> fields)
    | None => (y, fields)
    end in
  match Np.argmin y, Np.argmax y with
  | Ret imin, Ret imax =>
    let fields := <["min" := VPair (Np.item x imin) (Np.item y imin)]> fields in
    let fields := <["max" := VPair (Np.item x imax) (Np.item y imax)]> fields in
    let fields :=
      <["com" := VArr ((λ c, Np.interp c (Np.arange (length x)) x)
                       <$> center_of_mass y)]> fields in
    let mid := Np.divide (Np.add (Np.max y) (Np.min y)) (Np.of_nat 2) in
    let crossings := Np.where_nonzero (Np.diff_int (Np.above mid y)) 0 in
    let _cen_list := crossing_at x y mid <$> crossings in
    let fields :=
      match _cen_list with
      | [] => fields
      | _ =>
        let fields := <["cen" := VNum (Np.mean _cen_list)]> fields in
        let fields := <["crossings" := VArr _cen_list]> fields in
        if decide (2 ≤ length _cen_list)%nat then
          <["fwhm" := VNum (Np.abs (Np.subtract
                                      (Np.item _cen_list (length _cen_list - 1))
                                      (Np.item _cen_list 0)))]> fields
        else fields
      end in
    Ret fields
  | Raise e, _ | _, Raise e => Raise e
  end.

(** The attributes of a PeakStats object.  The stats fields are set with
    [setattr], by name: [attrs] holds them.  [der] exists when
    [compute_derivative] is set, and is None until a run is computed.
    [_events] is filled by the CollectThenCompute base class. *)
Record self : Type := {
  x : string;
  y : string;
  _edge_count : option Z;
  compute_derivative : bool;
  _stats_fields : gmap string value;
  attrs : gmap string value;
  der : option (option (gmap string value));
  x_data : option (list F);
  y_data : option (list F);
  _events : list (gmap string F);
}.

Definition set_attrs (v : gmap string value) (s : self) : self :=
  {| x := x s; y := y s; _edge_count := _edge_count s;
     compute_derivative := compute_derivative s;
     _stats_fields := _stats_fields s; attrs := v; der := der s;
     x_data := x_data s; y_data := y_data s; _events := _events s |}.
Definition set_der (v : option (option (gmap string value))) (s : self) : self :=
  {| x := x s; y := y s; _edge_count := _edge_count s;
     compute_derivative := compute_derivative s;
     _stats_fields := _stats_fields s; attrs := attrs s; der := v;
     x_data := x_data s; y_data := y_data s; _events := _events s |}.
Definition set_data (xs ys : list F) (s : self) : self :=
  {| x := x s; y := y s; _edge_count := _edge_count s;
     compute_derivative := compute_derivative s;
     _stats_fields := _stats_fields s; attrs := attrs s; der := der s;
     x_data := Some xs; y_data := Some ys; _events := _events s |}.
Definition set__events (v : list (gmap string F)) (s : self) : self :=
  {| x := x s; y := y s; _edge_count := _edge_count s;
     compute_derivative := compute_derivative s;
     _stats_fields := _stats_fields s; attrs := attrs s; der := der s;
     x_data := x_data s; y_data := y_data s; _events := v |}.

(** [setattr(self, field, value)] and [getattr(obj, field)]. *)
Definition setattr (field : string) (v : value) : py self unit :=
  py_modify (λ s, set_attrs (<[field := v]> (attrs s)) s).

Definition getattr {S} (obj : gmap string value) (field : string) : py S value :=
  match obj !! field with
  | Some v => py_ret v
  | None => py_raise AttributeError
  end.

(** The dict literal of lines 218-226. *)
Definition stats_fields0 : gmap string value :=
  <["min" := VNone]> (<["max" := VNone]> (<["com" := VNone]> (<["cen" := VNone]>
    (<["crossings" := VNone]> (<["fwhm" := VNone]> (<["lin_bnk" := VNone]> ∅)))))).

(** [__init__], lines 212-233. *)
Definition __init__ (x0 y0 : string) (edge_count : option Z)
    (compute_derivative0 : bool) : self :=
  let stats_fields := stats_fields0 in
  let s :=
    {| x := x0; y := y0; _edge_count := edge_count;
       compute_derivative := compute_derivative0;
       _stats_fields := stats_fields; attrs := ∅; der := None;
       x_data := None; y_data := None; _events := [] |} in
  let s := (for_each (map_to_list stats_fields) (λ fv, setattr fv.1 fv.2) s).2 in
  if compute_derivative0 then set_der (Some None) s else s.

(** [__getitem__], lines 235-239. *)
Definition __getitem__ (key : string) : py self value :=
  s ← py_get;
  if decide (key ∈ dom (_stats_fields s)) then getattr (attrs s) key
  else py_raise KeyError.

(** The arrays that [compute] collects, lines 288-300: the events with both
    fields, in order. *)
Definition collected (s : self) : list (F * F) :=
  omap (λ data, match data !! x s, data !! y s with
                | Some _x, Some _y => Some (_x, _y)
                | _, _ => None
                end) (_events s).

Definition lift {S A} (o : outcome A) : py S A :=
  match o with
  | Ret a => py_ret a
  | Raise e => py_raise e
  end.

(** [compute], lines 282-329; [xs] and [ys] are its arrays [x] and [y]. *)
Definition compute : py self unit :=
  s ← py_get;
  for_each (map_to_list (_stats_fields s)) (λ fv, setattr fv.1 fv.2);;
  let xs := (collected s).*1 in
  let ys := (collected s).*2 in
  if decide (length xs = 0%nat) then py_ret tt
  else
    py_modify (set_data xs ys);;
    let stats_fields := _stats_fields s in
    stats ← lift (_calc_stats xs ys stats_fields (_edge_count s));
    for_each (map_to_list (_stats_fields s)) (λ fv,
      v ← getattr stats fv.1;
      setattr fv.1 v);;
    if compute_derivative s then
      let x_der := Np.slice_from 1 xs in
      let y_der := Np.diff ys in
      let stats_fields := _stats_fields s in
      let stats_fields := <["y" := VArr y_der]> (<["x" := VArr x_der]> stats_fields) in
      d ← lift (_calc_stats x_der y_der stats_fields (_edge_count s));
      py_modify (set_der (Some (Some d)))
    else py_ret tt.

(** Modelled from the spec: the collector CollectThenCompute, which is not
    part of the sources (sections 2 and 3): it batches the event documents of
    a run in [_events] and runs [compute] once, at stop. *)
Definition stop (events : list (gmap string F)) : py self unit :=
  py_modify (set__events events);;
  compute.

(** ** Notions used to state the properties *)

(** The ordinates that the statistics are computed on: [y], or [y] less the
    background line. *)
Definition used_y (x y : list F) (edge_count : option Z) : list F :=
  match edge_count with
  | Some edge_count =>
    let '(m, b) := edge_line x y edge_count in
    zip_with (λ yi xi, Np.subtract yi (Np.add (Np.multiply m xi) b)) y x
  | None => y
  end.

(** The half-maximum crossings of section 4.2, step 4: the abscissas where
    the line through two consecutive samples crosses the middle
    [(max(y) + min(y)) / 2], for the pairs that [y > mid] tells apart, in
    index order. *)
Definition half_max_crossings (x y : list F) : list F :=
  let mid := Np.divide (Np.add (Np.max y) (Np.min y)) (Np.of_nat 2) in
  crossing_at x y mid <$> Np.where_nonzero (Np.diff_int (Np.above mid y)) 0.

(** Lines 270-275 on the list of crossings [cs]. *)
Definition record_crossings (cs : list F) (fields : gmap string value)
    : gmap string value :=
  match cs with
  | [] => fields
  | _ =>
    let fields := <["cen" := VNum (Np.mean cs)]> fields in
    let fields := <["crossings" := VArr cs]> fields in
    if decide (2 ≤ length cs)%nat then
      <["fwhm" := VNum (Np.abs (Np.subtract (Np.item cs (length cs - 1))
                                  (Np.item cs 0)))]> fields
    else fields
  end.

(** The fields handed to [_calc_stats], with the background line when
    there is one. *)
Definition with_line (x y : list F) (fields : gmap string value)
    (edge_count : option Z) : gmap string value :=
  match edge_count with
  | Some edge_count =>
    <["lin_bkg" := VLine (edge_line x y edge_count).1 (edge_line x y edge_count).2]> fields
  | None => fields
  end.

(** The attributes once the fields named in [fields] are copied from
    [stats]. *)
Definition copied (fields stats attrs : gmap string value) : gmap string value :=
  map_imap (λ k _, stats !! k) fields ∪ attrs.

(** The names of the stats fields of a PeakStats object. *)
Definition stats_names : list string :=
  ["min"; "max"; "com"; "cen"; "crossings"; "fwhm"; "lin_bnk"].

(** The event document has the two fields that [compute] reads. *)
Definition has_both (s : self) (data : gmap string F) : Prop :=
  is_Some (data !! x s) ∧ is_Some (data !! y s).

#[global] Instance has_both_dec s data : Decision (has_both s data).
Proof. unfold has_both. apply _. Defined.

(** The object after the runs whose event buffers are [runs], in order,
    whether [compute] returned or raised. *)
Definition after_runs (runs : list (list (gmap string F))) (s : self) : self :=
  foldl (λ s events, (stop events s).2) s runs.


End WithNumpy.
Arguments value : clear implicits.
Arguments self : clear implicits.

(** The classic discrete centroid: the sum of w[i] * i over the sum of the
    w[i], in exact arithmetic. *)
Fixpoint big_sum (f : nat → Q) (n : nat) : Q :=
  match n with
  | O => 0
  | S n' => big_sum f n' + f n'
  end.

Definition classic_centroid (w : list Q) : Q :=
  (big_sum (λ i, Np.item w i * inject_Z (Z.of_nat i)) (length w)
   / big_sum (λ i, Np.item w i) (length w))%Q.

(** The products weight[i] * i of the centroid formula, by index. *)
Definition weighted {F} {U : Np.Ufunc F} (w : list F) : list F :=
  (λ i, Np.multiply (Np.item w i) (Np.of_nat i)) <$> seq 0 (length w).

End PeakStats.

(** ** A coordinator and a run to try the definitions on *)

Module Demo.
Import LiveFit.

(** A model with two free parameters and one independent variable, whose
    [fit] hands back what it was given. *)
Definition model : Model Z (list Z * gmap string (kwarg Z)) :=
  {| param_names := ["amplitude"; "center"];
     model_independent_vars := ["x"];
     fit := λ ys kwargs, (ys, kwargs) |}.

(** [LiveFit(model, 'det', {'x': 'motor'}, update_every=every)]. *)
Definition built (every : option Z) : outcome (self Z (list Z * gmap string (kwarg Z))) :=
  __init__ model "det" {["x" := "motor"]} None every.

Definition coordinator (every : option Z) : self Z (list Z * gmap string (kwarg Z)) :=
  {| ydata := []; independent_vars_data := {["x" := []]}; stale := false;
     result := None; _model := model; y := "det";
     _independent_vars := {["x" := "motor"]}; init_guess := ∅;
     update_every := every; effects := [] |}.

Definition reading (motor det : Z) : gmap string Z :=
  {["motor" := motor; "det" := det]}.

Definition four_readings : list (gmap string Z) :=
  [reading 10 1; reading 20 2; reading 30 3; reading 40 4].

(** [PeakStats('motor', 'det')] with the events of a run over the peak
    0, 1, 4, 9, 4, 1, 0, and the same with [compute_derivative=True]. *)
Definition point (motor det : Q) : gmap string Q :=
  {["motor" := motor; "det" := det]}.

Definition peak_events : list (gmap string Q) :=
  [point 0 0; point 1 1; point 2 4; point 3 9; point 4 4; point 5 1; point 6 0]%Q.

Definition peak : PeakStats.self Q :=
  PeakStats.set__events peak_events (PeakStats.__init__ "motor" "det" None false).


(** [PeakStats('motor', 'det', compute_derivative=True)] with one event
    that lacks the motor field, and with three events of a flat signal. *)
Definition lonely : PeakStats.self Q :=
  PeakStats.set__events [{["det" := 1%Q]}]
    (PeakStats.__init__ "motor" "det" None true).

Definition flat : PeakStats.self Q :=
  PeakStats.set__events [point 0 5; point 1 5; point 2 5]%Q
    (PeakStats.__init__ "motor" "det" None true).

(** The weights [0, 1, 1, 0] and [0, 0, 0, 0.1] as float64 arrays (the
    double nearest to 0.1 is 0x1.999999999999ap-4), and the latter as the
    rationals they are. *)
Import PrimFloat.

Definition weights_0110 : list PrimFloat.float :=
  [PrimFloat.zero; PrimFloat.one; PrimFloat.one; PrimFloat.zero].

Definition weights_tail : list PrimFloat.float :=
  [PrimFloat.zero; PrimFloat.zero; PrimFloat.zero; 0x1.999999999999ap-4%float].

Definition weights_tail_exact : list Q :=
  [0; 0; 0; 3602879701896397 # 36028797018963968]%Q.

End Demo.

(** * Running a method *)

Lemma run_bind {S A B} (m : py S A) (k : A → py S B) (st : S) :
  (m ≫= k) st = match m st with
                | (Ret a, st') => k a st'
                | (Raise e, st') => (Raise e, st')
                end.
Proof. reflexivity. Qed.

Lemma run_get {S} (st : S) : py_get st = (Ret st, st).
Proof. reflexivity. Qed.

Lemma run_modify {S} (f : S → S) (st : S) : py_modify f st = (Ret tt, f st).
Proof. reflexivity. Qed.

Lemma run_ret {S A} (a : A) (st : S) : py_ret a st = (Ret a, st).
Proof. reflexivity. Qed.

Lemma run_raise {S A} e (st : S) : @py_raise S A e st = (Raise e, st).
Proof. reflexivity. Qed.

Lemma run_for_each_cons {S A} (a : A) l (body : A → py S unit) (st : S) :
  for_each (a :: l) body st = match body a st with
                              | (Ret _, st') => for_each l body st'
                              | (Raise e, st') => (Raise e, st')
                              end.
Proof. reflexivity. Qed.

Ltac run :=
  repeat (first [rewrite run_bind | rewrite run_get | rewrite run_modify
                | rewrite run_ret | rewrite run_raise]; cbn beta iota).

(** * Properties of LiveFit *)

Module LiveFitFacts.
Import LiveFit.

Section WithTypes.
Context {Scalar FitResult : Type}.
Local Abbreviation self := (LiveFit.self Scalar FitResult).
Local Abbreviation py := (py self).
Implicit Types (s : self) (data : gmap string Scalar).

(** ** The loop of [update_caches] *)

Lemma append_loop (idv : gmap string Scalar) (l : list (string * list Scalar)) s :
  NoDup l.*1 →
  (∀ k, k ∈ l.*1 → is_Some (idv !! k)) →
  ∃ M : gmap string (list Scalar),
    for_each l (λ kv, x ← getitem idv kv.1;
                      py_modify (λ s, set_independent_vars_data
                        (alter (λ v, v ++ [x]) kv.1 (independent_vars_data s)) s)) s
    = (Ret tt, set_independent_vars_data M s)
    ∧ ∀ k, M !! k =
           if decide (k ∈ l.*1)
           then v ← independent_vars_data s !! k; x ← idv !! k; Some (push x v)
           else independent_vars_data s !! k.
Proof.
  revert s. induction l as [|[k0 v0] l IH]; intros s Hnd Hin.
  - exists (independent_vars_data s). split; [by destruct s|].
    intros k. by rewrite decide_False by set_solver.
  - apply NoDup_cons in Hnd as [Hk0 Hnd].
    destruct (Hin k0) as [x0 Hx0]; [set_solver|].
    set (s1 := set_independent_vars_data
                 (alter (λ v, v ++ [x0]) k0 (independent_vars_data s)) s).
    destruct (IH s1 Hnd) as (M & Hrun & HM); [set_solver|].
    exists M. split.
    + rewrite run_for_each_cons, run_bind. unfold getitem. cbn [fst].
      rewrite Hx0. run. exact Hrun.
    + intros k. rewrite HM. cbn [fmap list_fmap fst]. cbn -[decide].
      destruct (decide (k = k0)) as [->|Hne].
      * rewrite decide_False by done. rewrite decide_True by set_solver.
        rewrite lookup_alter_eq, Hx0. by destruct (independent_vars_data s !! k0).
      * rewrite lookup_alter_ne by done.
        destruct (decide (k ∈ l.*1)).
        -- by rewrite decide_True by set_solver.
        -- by rewrite decide_False by set_solver.
Qed.

Lemma update_caches_ok yv (idv : gmap string Scalar) s :
  dom (independent_vars_data s) ⊆ dom idv →
  update_caches yv idv s = (Ret tt, stored yv idv s).
Proof.
  intros Hdom. unfold update_caches.
  set (s0 := set_ydata (ydata s ++ [yv]) s).
  destruct (append_loop idv (map_to_list (independent_vars_data s0)) s0)
    as (M & Hrun & HM).
  - apply NoDup_fst_map_to_list.
  - intros k [[k' v] [-> Hkv]]%list_elem_of_fmap.
    apply elem_of_map_to_list in Hkv. apply elem_of_dom, Hdom, elem_of_dom. eauto.
  - run. fold s0. run. rewrite Hrun. f_equal. unfold stored. fold s0.
    f_equal. apply map_eq. intros k. rewrite HM, map_lookup_zip_with.
    change (independent_vars_data s0) with (independent_vars_data s).
    destruct (independent_vars_data s !! k) as [v|] eqn:Hk; cbn.
    + rewrite decide_True; [done|].
      apply list_elem_of_fmap. exists (k, v). split; [done|].
      by apply elem_of_map_to_list.
    + by case_decide.
Qed.

(** ** One transition at a time *)

Lemma update_fit_short s :
  length (ydata s) < N_of s →
  update_fit s = (Ret tt, emit (EWarn (N_of s)) s).
Proof.
  intros Hlt. unfold update_fit. run. cbn zeta.
  rewrite decide_True by exact Hlt. by run.
Qed.

Lemma update_fit_enough s :
  N_of s ≤ length (ydata s) → update_fit s = (Ret tt, fitted s).
Proof.
  intros Hle. unfold update_fit. run. cbn zeta.
  rewrite decide_False by (unfold N_of in Hle; lia). by run.
Qed.

Lemma event_skip data s :
  data !! y s = None → event data s = (Ret tt, s).
Proof. intros Hy. unfold event. run. by rewrite Hy. Qed.

Lemma event_missing_field data s yv :
  data !! y s = Some yv → ¬ present data s →
  event data s = (Raise KeyError, s).
Proof.
  intros Hy Hno. unfold event. run. rewrite Hy. run.
  unfold lookup_fields. by rewrite decide_False by exact Hno.
Qed.

Lemma dom_fields data s : present data s → dom (fields data s) = dom (_independent_vars s).
Proof.
  intros Hall. apply set_eq. intros k. rewrite !elem_of_dom.
  unfold fields. rewrite lookup_omap.
  destruct (_independent_vars s !! k) as [v|] eqn:Hk; cbn.
  - split; [eauto|]. intros _. exact (Hall k v Hk).
  - split; intros [? ?]; discriminate.
Qed.

Lemma event_store data s yv :
  bound s → data !! y s = Some yv → present data s →
  event data s = cadence (set_stale true (stored yv (fields data s) s)).
Proof.
  intros Hb Hy Hall. unfold event. run. rewrite Hy. run.
  unfold lookup_fields. rewrite decide_True by exact Hall. run.
  fold (fields data s). rewrite update_caches_ok.
  - by run.
  - rewrite dom_fields by done. by rewrite Hb.
Qed.

Lemma cadence_never s :
  update_every s = None → cadence s = (Ret tt, s).
Proof. intros Hu. unfold cadence. run. by rewrite Hu. Qed.

Lemma cadence_early s every :
  update_every s = Some every → length (ydata s) < N_of s →
  cadence s = (Ret tt, s).
Proof.
  intros Hu Hlt. unfold cadence. run. rewrite Hu. cbn zeta.
  by rewrite decide_True by exact Hlt.
Qed.

Lemma cadence_first s every :
  update_every s = Some every → length (ydata s) = N_of s →
  cadence s = (Ret tt, fitted s).
Proof.
  intros Hu Heq. unfold cadence. run. rewrite Hu. cbn zeta.
  rewrite decide_False by (unfold N_of in Heq; lia).
  rewrite decide_True by exact Heq. apply update_fit_enough. lia.
Qed.

Lemma cadence_zero s :
  update_every s = Some 0%Z → N_of s < length (ydata s) →
  cadence s = (Raise ZeroDivisionError, s).
Proof.
  intros Hu Hgt. unfold cadence. run. rewrite Hu. cbn zeta.
  rewrite decide_False by (unfold N_of in Hgt; lia).
  rewrite decide_False by (unfold N_of in Hgt; lia).
  by run.
Qed.

Lemma cadence_later s every :
  update_every s = Some every → every ≠ 0%Z → N_of s < length (ydata s) →
  cadence s =
    (Ret tt, if decide (((Z.of_nat (length (ydata s)) - 1) `mod` every)%Z = 0%Z)
             then fitted s else s).
Proof.
  intros Hu Hne Hgt. unfold cadence. run. rewrite Hu. cbn zeta.
  rewrite decide_False by (unfold N_of in Hgt; lia).
  rewrite decide_False by (unfold N_of in Hgt; lia).
  run. unfold py_mod. rewrite decide_False by exact Hne. run.
  case_decide; [|done]. apply update_fit_enough. lia.
Qed.

Lemma cadence_decision s :
  cadence s = match decision (update_every s) (N_of s) (length (ydata s)) with
              | Ret true => (Ret tt, fitted s)
              | Ret false => (Ret tt, s)
              | Raise e => (Raise e, s)
              end.
Proof.
  unfold decision. destruct (update_every s) as [k|] eqn:Hu.
  - destruct (decide (length (ydata s) < N_of s)) as [Hlt|Hge].
    { by rewrite (cadence_early _ _ Hu Hlt). }
    destruct (decide (length (ydata s) = N_of s)) as [Heq|Hne].
    { by rewrite (cadence_first _ _ Hu Heq). }
    destruct (decide (k = 0%Z)) as [->|Hk].
    { rewrite (cadence_zero _ Hu); [done|lia]. }
    rewrite (cadence_later _ _ Hu Hk) by lia.
    case_decide.
    + by rewrite bool_decide_eq_true_2.
    + by rewrite bool_decide_eq_false_2.
  - by rewrite cadence_never.
Qed.

Lemma start_run s : start s = (Ret tt, cleared s).
Proof. reflexivity. Qed.

Lemma stop_run s : stop s = if stale s then update_fit s else (Ret tt, s).
Proof. unfold stop. run. by destruct (stale s). Qed.

Lemma update_fit_run s :
  update_fit s = (Ret tt, if decide (length (ydata s) < N_of s)
                          then emit (EWarn (N_of s)) s else fitted s).
Proof.
  case_decide.
  - by apply update_fit_short.
  - apply update_fit_enough. lia.
Qed.

(** [event] in one equation: its outcome and the object it leaves. *)
Lemma event_run s data :
  bound s →
  event data s =
    (match data !! y s with
     | None => Ret tt
     | Some _ =>
       if decide (present data s) then
         match decision (update_every s) (N_of s) (S (length (ydata s))) with
         | Raise e => Raise e
         | Ret _ => Ret tt
         end
       else Raise KeyError
     end, after_event s data).
Proof.
  intros Hb. unfold after_event.
  destruct (data !! y s) as [yv|] eqn:Hy.
  - destruct (decide (present data s)) as [Hall|Hno].
    + rewrite (event_store _ _ _ Hb Hy Hall), cadence_decision.
      cbn [update_every N_of _model ydata set_stale stored
           set_independent_vars_data set_ydata].
      rewrite length_app, Nat.add_1_r. cbn [length].
      by destruct (decision _ _ _) as [[]|].
    + by rewrite (event_missing_field _ _ _ Hy Hno).
  - by rewrite event_skip.
Qed.

(** ** What the transitions keep *)

Lemma same_config_refl s : same_config s s.
Proof. by repeat split. Qed.

Lemma same_config_trans s1 s2 s3 :
  same_config s1 s2 → same_config s2 s3 → same_config s1 s3.
Proof. unfold same_config. intros (?&?&?&?&?) (?&?&?&?&?). repeat split; congruence. Qed.

Lemma after_event_config s data : same_config s (after_event s data).
Proof.
  unfold after_event. destruct (data !! y s); [|apply same_config_refl].
  case_decide; [|apply same_config_refl].
  by destruct (decision _ _ _) as [[]|].
Qed.

Lemma cleared_config s : same_config s (cleared s).
Proof. by repeat split. Qed.

Lemma after_stop_config s : same_config s (stop s).2.
Proof.
  rewrite stop_run. destruct (stale s); [|apply same_config_refl].
  rewrite update_fit_run. cbn. by case_decide.
Qed.

Lemma bound_stored yv data s :
  bound s → present data s → bound (stored yv (fields data s) s).
Proof.
  unfold bound. intros Hb Hall. cbn.
  rewrite dom_map_zip_with_L, dom_fields, Hb by done. set_solver.
Qed.

Lemma aligned_stored yv idv s : aligned s → aligned (stored yv idv s).
Proof.
  intros Hal k v. cbn. rewrite map_lookup_zip_with.
  destruct (independent_vars_data s !! k) as [v0|] eqn:Hk; [|done]. cbn.
  destruct (idv !! k) as [x|]; [|done]. cbn. intros [= <-].
  unfold push. rewrite !length_app. cbn. by rewrite (Hal k v0 Hk).
Qed.

Lemma after_event_bound s data : bound s → bound (after_event s data).
Proof.
  intros Hb. unfold after_event. destruct (data !! y s) as [yv|]; [|done].
  case_decide as Hall; [|done].
  pose proof (bound_stored yv data s Hb Hall) as Hb'.
  by destruct (decision _ _ _) as [[]|].
Qed.

Lemma after_event_aligned s data : aligned s → aligned (after_event s data).
Proof.
  intros Hal. unfold after_event. destruct (data !! y s) as [yv|]; [|done].
  case_decide as Hall; [|done].
  pose proof (aligned_stored yv (fields data s) s Hal) as Hal'.
  by destruct (decision _ _ _) as [[]|].
Qed.

Lemma cleared_bound s : bound s → bound (cleared s).
Proof. unfold bound. cbn. by rewrite dom_fmap_L. Qed.

Lemma cleared_aligned s : aligned (cleared s).
Proof.
  intros k v. cbn. rewrite lookup_fmap.
  destruct (independent_vars_data s !! k); [|done]. by intros [= <-].
Qed.

Lemma after_stop_bound s : bound s → bound (stop s).2.
Proof.
  intros Hb. rewrite stop_run. destruct (stale s); [|done].
  rewrite update_fit_run. cbn. by case_decide.
Qed.

Lemma after_stop_aligned s : aligned s → aligned (stop s).2.
Proof.
  intros Hb. rewrite stop_run. destruct (stale s); [|done].
  rewrite update_fit_run. cbn. by case_decide.
Qed.

Lemma set_independent_vars_run val s :
  set_independent_vars val s =
    if decide (dom val ≠ list_to_set (model_independent_vars (_model s)))
    then (Raise ValueError, s)
    else (Ret tt, cleared (set_independent_vars_data ((λ _, []) <$> val)
                             (set__independent_vars val s))).
Proof. unfold set_independent_vars. run. by case_decide. Qed.

Lemma after_bind_bound val s : bound s → bound (set_independent_vars val s).2.
Proof.
  intros Hb. rewrite set_independent_vars_run. case_decide; [done|].
  unfold bound. cbn. by rewrite !dom_fmap_L.
Qed.

Lemma after_bind_aligned val s : aligned s → aligned (set_independent_vars val s).2.
Proof.
  intros Hal. rewrite set_independent_vars_run. case_decide; [done|].
  apply cleared_aligned.
Qed.

Lemma init_bound model y0 ivars guess every s0 :
  __init__ model y0 ivars guess every = Ret s0 → bound s0 ∧ aligned s0.
Proof.
  unfold __init__. rewrite set_independent_vars_run.
  case_decide; [done|]. intros [= <-]. split.
  - unfold bound. cbn. by rewrite !dom_fmap_L.
  - apply cleared_aligned.
Qed.

Lemma perform_keeps c s :
  bound s ∧ aligned s → bound (perform c s).2 ∧ aligned (perform c s).2.
Proof.
  intros [Hb Hal]. destruct c as [|data| |val]; cbn [perform].
  - rewrite start_run. split; [by apply cleared_bound|apply cleared_aligned].
  - rewrite event_run by done.
    split; [by apply after_event_bound|by apply after_event_aligned].
  - split; [by apply after_stop_bound|by apply after_stop_aligned].
  - split; [by apply after_bind_bound|by apply after_bind_aligned].
Qed.

Lemma observe_keeps calls s :
  bound s ∧ aligned s → bound (observe calls s) ∧ aligned (observe calls s).
Proof.
  revert s. induction calls as [|c calls IH]; intros s Hs; [done|].
  cbn. apply IH. by apply perform_keeps.
Qed.

Lemma after_event_stored s data yv :
  data !! y s = Some yv → present data s →
  ydata (after_event s data) = ydata s ++ [yv]
  ∧ independent_vars_data (after_event s data)
    = map_zip_with (λ v x, push x v) (independent_vars_data s) (fields data s).
Proof.
  intros Hy Hall. unfold after_event. rewrite Hy, decide_True by done.
  by destruct (decision _ _ _) as [[]|].
Qed.

Lemma lookup_fields_present data s k f x :
  _independent_vars s !! k = Some f → data !! f = Some x →
  fields data s !! k = Some x.
Proof. intros Hk Hf. unfold fields. rewrite lookup_omap, Hk. exact Hf. Qed.

(** C7: all the series kept by the coordinator have the length of the
    dependent series at every observation point, that is after any sequence
    of start, event, stop and rebinding calls on a constructed coordinator,
    whether they returned or raised.  An event whose document has the
    dependent field and the bound fields appends exactly one value to the
    dependent series and one, the document's value of the bound field, to each
    series; an event whose document lacks the dependent field changes
    nothing. *)
Theorem series_have_equal_length model y0 ivars guess every s0 calls :
  __init__ model y0 ivars guess every = Ret s0 →
  let s := observe calls s0 in
  aligned s
  ∧ (∀ data yv, data !! y s = Some yv → present data s →
       let s' := (event data s).2 in
       ydata s' = ydata s ++ [yv]
       ∧ dom (independent_vars_data s') = dom (independent_vars_data s)
       ∧ ∀ k v, independent_vars_data s !! k = Some v →
           ∃ f x, _independent_vars s !! k = Some f ∧ data !! f = Some x
                  ∧ independent_vars_data s' !! k = Some (v ++ [x]))
  ∧ (∀ data, data !! y s = None → (event data s).2 = s).
Proof.
  intros Hinit s.
  destruct (observe_keeps calls s0 (init_bound _ _ _ _ _ _ Hinit)) as [Hb Hal].
  fold s in Hb, Hal. split; [exact Hal|]. split.
  - intros data yv Hy Hall s'. subst s'. rewrite event_run by done.
    cbn [snd]. destruct (after_event_stored s data yv Hy Hall) as [-> ->].
    split; [done|]. split.
    + rewrite dom_map_zip_with_L, dom_fields, Hb by done. set_solver.
    + intros k v Hk.
      assert (is_Some (_independent_vars s !! k)) as [f Hf].
      { apply elem_of_dom. rewrite <- Hb. apply elem_of_dom. eauto. }
      destruct (Hall k f Hf) as [x Hx]. exists f, x. repeat split; [done..|].
      rewrite map_lookup_zip_with, Hk. cbn.
      by rewrite (lookup_fields_present _ _ _ _ _ Hf Hx).
  - intros data Hy. by rewrite event_skip.
Qed.

(** C8: a fit attempted with fewer samples than free parameters returns
    normally, emits one warning and calls nothing else, and leaves the stored
    result, the stale flag and the series as they were. *)
Theorem insufficient_data_only_warns s :
  length (ydata s) < N_of s →
  ∃ s', update_fit s = (Ret tt, s')
        ∧ effects s' = effects s ++ [EWarn (N_of s)]
        ∧ result s' = result s
        ∧ stale s' = stale s
        ∧ ydata s' = ydata s
        ∧ independent_vars_data s' = independent_vars_data s.
Proof.
  intros Hlt. exists (emit (EWarn (N_of s)) s).
  by rewrite update_fit_short.
Qed.

(** ** Delivering the documents of a run *)

Lemma run_deliver_cons doc docs s :
  deliver (doc :: docs) s = match dispatch doc s with
                            | (Ret _, s') => deliver docs s'
                            | (Raise e, s') => (Raise e, s')
                            end.
Proof. reflexivity. Qed.

Lemma well_formed_config s s' data :
  same_config s s' → well_formed s data → well_formed s' data.
Proof.
  intros (_ & Hy & Hiv & _) Hwf. unfold well_formed, present in *.
  by rewrite Hy, Hiv.
Qed.

Lemma N_of_config s s' : same_config s s' → N_of s' = N_of s.
Proof. intros (Hm & _). unfold N_of. by rewrite Hm. Qed.

Lemma samples_cons yname data evs :
  samples yname (data :: evs) = option_list (data !! yname) ++ samples yname evs.
Proof. unfold samples. cbn. by destruct (data !! yname). Qed.

Lemma after_event_ydata s data :
  well_formed s data →
  ydata (after_event s data) = ydata s ++ option_list (data !! y s).
Proof.
  intros Hwf. destruct (data !! y s) as [yv|] eqn:Hy; cbn.
  - apply after_event_stored; [done|]. apply Hwf. eauto.
  - unfold after_event. rewrite Hy. by rewrite app_nil_r.
Qed.

Lemma foldl_after_event_config evs s : same_config s (foldl after_event s evs).
Proof.
  revert s. induction evs as [|data evs IH]; intros s; cbn.
  - apply same_config_refl.
  - eapply same_config_trans; [apply after_event_config|apply IH].
Qed.

Lemma foldl_after_event_bound evs s : bound s → bound (foldl after_event s evs).
Proof.
  revert s. induction evs as [|data evs IH]; intros s Hb; cbn; [done|].
  by apply IH, after_event_bound.
Qed.

Lemma Forall_well_formed_config s s' evs :
  same_config s s' → Forall (well_formed s) evs → Forall (well_formed s') evs.
Proof.
  intros Hc Hwf. eapply Forall_impl; [exact Hwf|].
  intros data. by apply well_formed_config.
Qed.

Lemma foldl_after_event_ydata evs s :
  Forall (well_formed s) evs →
  ydata (foldl after_event s evs) = ydata s ++ samples (y s) evs.
Proof.
  revert s. induction evs as [|data evs IH]; intros s Hwf; cbn [foldl].
  - unfold samples. cbn. by rewrite app_nil_r.
  - apply Forall_cons in Hwf as [Hd Hwf].
    pose proof (after_event_config s data) as Hc.
    rewrite IH by (by eapply Forall_well_formed_config).
    rewrite (after_event_ydata _ _ Hd), samples_cons, <- app_assoc.
    destruct Hc as (_ & -> & _). done.
Qed.

Lemma decision_fit every N i : decision every N i = Ret true → N ≤ i.
Proof.
  unfold decision. destruct every as [k|]; [|done].
  repeat case_decide; try done; lia.
Qed.

Lemma decision_safe every N i :
  every ≠ Some 0%Z ∨ i ≤ N → ∃ b, decision every N i = Ret b.
Proof.
  intros Hsafe. unfold decision. destruct every as [k|]; [|eauto].
  repeat case_decide; eauto. subst k. destruct Hsafe as [?|?]; [done|lia].
Qed.

(** Events that raise nothing are delivered to the end. *)
Lemma deliver_events evs s :
  bound s → Forall (well_formed s) evs →
  update_every s ≠ Some 0%Z
    ∨ length (ydata s) + length (samples (y s) evs) ≤ N_of s →
  deliver (Event <$> evs) s = (Ret tt, foldl after_event s evs).
Proof.
  revert s. induction evs as [|data evs IH]; intros s Hb Hwf Hsafe; [done|].
  apply Forall_cons in Hwf as [Hd Hwf].
  pose proof (after_event_config s data) as Hc.
  pose proof (after_event_ydata s data Hd) as Hy.
  rewrite samples_cons, length_app in Hsafe.
  cbn [fmap list_fmap foldl]. rewrite run_deliver_cons. cbn [dispatch].
  rewrite event_run by done.
  assert (match data !! y s with
          | Some _ =>
            if decide (present data s) then
              match decision (update_every s) (N_of s) (S (length (ydata s))) with
              | Ret _ => Ret tt
              | Raise e => Raise e
              end
            else Raise KeyError
          | None => Ret tt
          end = Ret tt) as ->.
  { destruct (data !! y s) as [yv|] eqn:Hyv; [|done].
    rewrite decide_True by (apply Hd; eauto).
    destruct (decision_safe (update_every s) (N_of s) (S (length (ydata s))))
      as [b ->]; [|done].
    destruct Hsafe as [?|Hle]; [by left|right]. cbn in Hle. lia. }
  apply IH.
  - by apply after_event_bound.
  - by eapply Forall_well_formed_config.
  - destruct Hc as (Hm & Hyn & _ & _ & Hu). rewrite Hu, Hyn, Hy.
    unfold N_of. rewrite Hm. fold (N_of s).
    destruct Hsafe as [?|Hle]; [by left|right].
    rewrite length_app. lia.
Qed.

Lemma deliver_app docs1 docs2 s s1 :
  deliver docs1 s = (Ret tt, s1) → deliver (docs1 ++ docs2) s = deliver docs2 s1.
Proof.
  revert s. induction docs1 as [|doc docs1 IH]; intros s; cbn [app].
  - by intros [= ->].
  - rewrite !run_deliver_cons. destruct (dispatch doc s) as [[[]|e] s2]; [|done].
    apply IH.
Qed.

Lemma deliver_start docs s : deliver (Start :: docs) s = deliver docs (cleared s).
Proof. by rewrite run_deliver_cons. Qed.

Lemma foldl_after_event_idle evs s :
  samples (y s) evs = [] → foldl after_event s evs = s.
Proof.
  induction evs as [|data evs IH]; [done|]. rewrite samples_cons. cbn [foldl].
  destruct (data !! y s) as [yv|] eqn:Hy; [done|]. cbn. intros Hnil.
  unfold after_event at 2. rewrite Hy. by apply IH.
Qed.

(** ** The calls of [model.fit] *)

Lemma fit_counts_app (t1 t2 : list (effect Scalar)) :
  fit_counts (t1 ++ t2) = fit_counts t1 ++ fit_counts t2.
Proof. apply omap_app. Qed.

Lemma warnings_app (t1 t2 : list (effect Scalar)) :
  warnings (t1 ++ t2) = warnings t1 ++ warnings t2.
Proof. apply omap_app. Qed.

Lemma after_event_effects s data :
  well_formed s data →
  effects (after_event s data) =
    effects s ++
    match data !! y s with
    | Some yv =>
      if fit_now (update_every s) (N_of s) (S (length (ydata s)))
      then [EFit (ydata s ++ [yv]) (kwargs_of (stored yv (fields data s) s))]
      else []
    | None => []
    end.
Proof.
  intros Hwf. unfold after_event, fit_now.
  destruct (data !! y s) as [yv|] eqn:Hy; [|by rewrite app_nil_r].
  rewrite decide_True by (apply Hwf; eauto).
  cbn [update_every N_of _model ydata set_stale stored
       set_independent_vars_data set_ydata].
  rewrite length_app, Nat.add_1_r. cbn [length].
  destruct (decision _ _ _) as [[]|]; cbn; by rewrite ?app_nil_r.
Qed.

Lemma foldl_after_event_counts evs s :
  Forall (well_formed s) evs →
  let s' := foldl after_event s evs in
  fit_counts (effects s') =
    fit_counts (effects s)
    ++ filter (λ i, fit_now (update_every s) (N_of s) i)
         (seq (S (length (ydata s))) (length (samples (y s) evs)))
  ∧ warnings (effects s') = warnings (effects s).
Proof.
  revert s. induction evs as [|data evs IH]; intros s Hwf; cbn [foldl].
  - cbn. by rewrite app_nil_r.
  - apply Forall_cons in Hwf as [Hd Hwf].
    pose proof (after_event_config s data) as Hc.
    destruct (IH (after_event s data)) as [IH1 IH2];
      [by eapply Forall_well_formed_config|].
    cbn zeta. rewrite IH1, IH2. clear IH IH1 IH2.
    rewrite (N_of_config _ _ Hc), (after_event_ydata _ _ Hd),
      (after_event_effects _ _ Hd), samples_cons.
    destruct Hc as (_ & -> & _ & _ & ->).
    rewrite fit_counts_app, warnings_app, length_app.
    destruct (data !! y s) as [yv|]; cbn [option_list length app Nat.add].
    + rewrite length_app, Nat.add_1_r.
      change (option_list (Some yv)) with [yv]. cbn [length Nat.add seq].
      rewrite filter_cons.
      destruct (fit_now _ _ _) eqn:Hfit.
      * rewrite decide_True by done. cbn.
        rewrite length_app, Nat.add_1_r, <- app_assoc, !app_nil_r. split; reflexivity.
      * rewrite decide_False by (by intros []). cbn. by rewrite !app_nil_r.
    + cbn. by rewrite !app_nil_r, Nat.add_0_r.
Qed.

Lemma filter_ext_seq (f g : nat → bool) a n :
  (∀ i, a ≤ i < a + n → f i = g i) → filter f (seq a n) = filter g (seq a n).
Proof.
  revert a. induction n as [|n IH]; intros a Hfg; [done|].
  cbn [seq]. rewrite !filter_cons, (Hfg a) by lia.
  rewrite (IH (S a)) by (intros i Hi; apply Hfg; lia). done.
Qed.

Lemma fit_now_due N k i : k ≠ 0%Z → fit_now (Some k) N i = due N k i.
Proof.
  intros Hk. unfold fit_now, decision, due.
  destruct (decide (i < N)).
  { rewrite !bool_decide_eq_false_2 by lia. done. }
  destruct (decide (i = N)).
  { by rewrite bool_decide_eq_true_2. }
  rewrite decide_False by done.
  rewrite (bool_decide_eq_false_2 (i = N)) by done.
  rewrite (bool_decide_eq_true_2 (N < i)) by lia. cbn.
  by destruct (bool_decide _).
Qed.

Lemma due_aligned N k i :
  (0 < k)%Z → ((Z.of_nat N - 1) `mod` k)%Z = 0%Z →
  due N k i = due_every_k_from_N N k i.
Proof.
  intros Hk Hmod. unfold due, due_every_k_from_N.
  apply Z.mod_divide in Hmod; [|lia].
  destruct (decide (i = N)) as [->|Hne].
  { rewrite (bool_decide_eq_true_2 (N = N)) by done.
    rewrite (bool_decide_eq_true_2 (N ≤ N)) by lia. cbn.
    symmetry. apply bool_decide_eq_true_2. by rewrite Z.sub_diag. }
  rewrite (bool_decide_eq_false_2 (i = N)) by done. cbn.
  destruct (decide (N < i)) as [Hlt|Hge].
  - rewrite (bool_decide_eq_true_2 (N < i)), (bool_decide_eq_true_2 (N ≤ i)) by lia.
    cbn. apply bool_decide_ext. rewrite !Z.mod_divide by lia.
    replace (Z.of_nat i - 1)%Z with ((Z.of_nat i - Z.of_nat N) + (Z.of_nat N - 1))%Z by lia.
    split; intros Hd.
    + replace (Z.of_nat i - Z.of_nat N)%Z
        with ((Z.of_nat i - Z.of_nat N + (Z.of_nat N - 1)) - (Z.of_nat N - 1))%Z by lia.
      by apply Z.divide_sub_r.
    + by apply Z.divide_add_r.
  - rewrite (bool_decide_eq_false_2 (N < i)), (bool_decide_eq_false_2 (N ≤ i)) by lia.
    done.
Qed.

(** The two cadences part at the count N + k unless k divides N - 1. *)
Lemma due_apart N k :
  (0 < k)%Z →
  filter (due N k) (seq 1 (N + Z.to_nat k))
  = filter (due_every_k_from_N N k) (seq 1 (N + Z.to_nat k)) →
  ((Z.of_nat N - 1) `mod` k)%Z = 0%Z.
Proof.
  intros Hk Heq. set (i := N + Z.to_nat k) in *.
  assert (i ∈ filter (due_every_k_from_N N k) (seq 1 i)) as Hin.
  { apply list_elem_of_filter. split.
    - unfold due_every_k_from_N. apply Is_true_true, andb_true_iff.
      split; apply bool_decide_eq_true_2; [lia|].
      replace (Z.of_nat i - Z.of_nat N)%Z with (1 * k)%Z by lia.
      apply Z.mod_mul. lia.
    - apply elem_of_seq. lia. }
  rewrite <- Heq in Hin. apply list_elem_of_filter in Hin as [Hdue _].
  unfold due in Hdue. apply Is_true_true, orb_true_iff in Hdue as [Hi|Hi].
  { apply bool_decide_eq_true_1 in Hi. lia. }
  apply andb_true_iff in Hi as [_ Hi]. apply bool_decide_eq_true_1 in Hi.
  apply Z.mod_divide in Hi; [|lia]. apply Z.mod_divide; [lia|].
  replace (Z.of_nat N - 1)%Z with ((Z.of_nat i - 1) - k)%Z by lia.
  apply Z.divide_sub_r; [done|]. apply Z.divide_refl.
Qed.

Lemma cleared_well_formed s evs :
  Forall (well_formed s) evs → Forall (well_formed (cleared s)) evs.
Proof. apply Forall_well_formed_config, cleared_config. Qed.

(** C1, amended: with [update_every = k > 0], the fits made while the events
    of a run are processed are exactly those at sample count N and at the
    later counts i with (i - 1) mod k = 0, and no warning is emitted; these
    are the counts N, N+k, N+2k, ... for runs of every length if and only if
    k divides N - 1. *)
Theorem fits_follow_cadence s evs k :
  bound s → update_every s = Some k → (0 < k)%Z →
  Forall (well_formed s) evs →
  let N := N_of s in
  let n := length (samples (y s) evs) in
  ∃ s', deliver (Start :: (Event <$> evs)) s = (Ret tt, s')
    ∧ fit_counts (effects s') = fit_counts (effects s) ++ filter (due N k) (seq 1 n)
    ∧ warnings (effects s') = warnings (effects s)
    ∧ ((∀ m, filter (due N k) (seq 1 m) = filter (due_every_k_from_N N k) (seq 1 m))
       ↔ ((Z.of_nat N - 1) `mod` k)%Z = 0%Z).
Proof.
  intros Hb Hu Hk Hwf N n. exists (foldl after_event (cleared s) evs).
  split; [|split; [|split]].
  - rewrite deliver_start. apply deliver_events.
    + by apply cleared_bound.
    + by apply cleared_well_formed.
    + left. change (update_every (cleared s)) with (update_every s).
      rewrite Hu. intros [= ->]. lia.
  - destruct (foldl_after_event_counts evs (cleared s)) as [-> _];
      [by apply cleared_well_formed|].
    change (update_every (cleared s)) with (update_every s). rewrite Hu.
    f_equal. apply filter_ext_seq. intros i _. apply fit_now_due. lia.
  - by destruct (foldl_after_event_counts evs (cleared s)) as [_ ->];
      [apply cleared_well_formed|].
  - split.
    + intros Hall. by apply due_apart.
    + intros Hmod m. apply filter_ext_seq. intros i _. by apply due_aligned.
Qed.

Lemma dispatch_keeps doc s :
  bound s → bound (dispatch doc s).2 ∧ same_config s (dispatch doc s).2.
Proof.
  intros Hb. destruct doc as [|data|]; cbn [dispatch].
  - rewrite start_run. split; [by apply cleared_bound|apply cleared_config].
  - rewrite event_run by done.
    split; [by apply after_event_bound|apply after_event_config].
  - split; [by apply after_stop_bound|apply after_stop_config].
Qed.

Lemma dispatch_effects doc s :
  bound s →
  ∃ t, effects (dispatch doc s).2 = effects s ++ t
       ∧ Forall (λ n, N_of s ≤ n) (fit_counts t)
       ∧ (doc ≠ Stop → warnings t = []).
Proof.
  intros Hb. destruct doc as [|data|]; cbn [dispatch].
  - exists []. rewrite start_run. cbn. by rewrite app_nil_r.
  - rewrite event_run by done. cbn [snd]. unfold after_event.
    destruct (data !! y s) as [yv|]; [|exists []; by rewrite app_nil_r].
    case_decide; [|exists []; by rewrite app_nil_r].
    destruct (decision _ _ _) as [[]|] eqn:Hdec;
      [|exists []; cbn; by rewrite app_nil_r..].
    eexists [_]. split; [reflexivity|]. split; [|done].
    apply Forall_singleton. cbn. by apply decision_fit in Hdec.
  - rewrite stop_run. destruct (stale s); [|exists []; by rewrite app_nil_r].
    rewrite update_fit_run. cbn [snd]. case_decide.
    + eexists [_]. split; [reflexivity|]. split; [|done].
      by apply Forall_nil.
    + eexists [_]. split; [reflexivity|]. split; [|done].
      apply Forall_singleton. cbn. lia.
Qed.

Lemma deliver_effects docs s :
  bound s →
  ∃ t, effects (deliver docs s).2 = effects s ++ t
       ∧ Forall (λ n, N_of s ≤ n) (fit_counts t)
       ∧ (Stop ∉ docs → warnings t = []).
Proof.
  revert s. induction docs as [|doc docs IH]; intros s Hb.
  { exists []. cbn. by rewrite app_nil_r. }
  rewrite run_deliver_cons.
  destruct (dispatch_keeps doc s Hb) as [Hb1 Hc1].
  destruct (dispatch_effects doc s Hb) as (t1 & Ht1 & Hen1 & Hw1).
  destruct (dispatch doc s) as [[[]|e] s1]; cbn [snd] in *.
  - destruct (IH s1 Hb1) as (t2 & Ht2 & Hen2 & Hw2).
    exists (t1 ++ t2). rewrite Ht2, Ht1, <- app_assoc. split; [done|]. split.
    + rewrite fit_counts_app. apply Forall_app. split; [done|].
      by rewrite <- (N_of_config _ _ Hc1).
    + intros Hno. rewrite warnings_app, Hw1, Hw2; [done| |].
      * intros Hin. apply Hno. by right.
      * intros ->. apply Hno. by left.
  - exists t1. split; [done|]. split; [done|].
    intros Hno. apply Hw1. intros ->. apply Hno. by left.
Qed.

Lemma first_fit_effect evs s every :
  update_every s = Some every →
  Forall (well_formed s) evs →
  samples (y s) evs ≠ [] →
  length (ydata s) + length (samples (y s) evs) = N_of s →
  let s' := foldl after_event s evs in
  effects s' = effects s ++ [EFit (ydata s') (kwargs_of s')].
Proof.
  revert s. induction evs as [|data evs IH]; intros s Hu Hwf Hne Hlen; [done|].
  apply Forall_cons in Hwf as [Hd Hwf].
  pose proof (after_event_config s data) as Hc.
  pose proof (after_event_ydata s data Hd) as Hy.
  pose proof (after_event_effects s data Hd) as He.
  rewrite samples_cons in Hne, Hlen. rewrite length_app in Hlen.
  cbn [foldl]. cbn zeta.
  destruct (data !! y s) as [yv|] eqn:Hyv.
  - destruct (decide (samples (y s) evs = [])) as [Hnil|Hmore].
    + rewrite foldl_after_event_idle
        by (by destruct Hc as (_ & -> & _)).
      rewrite Hnil in Hlen. cbn in Hlen.
      unfold after_event in *. rewrite Hyv in *.
      rewrite decide_True in * by (apply Hd; eauto).
      cbn [update_every N_of _model ydata set_stale stored
           set_independent_vars_data set_ydata].
      rewrite length_app, Nat.add_1_r. cbn [length].
      change (N_of (set_stale true (stored yv (fields data s) s))) with (N_of s).
      unfold decision. rewrite Hu.
      rewrite decide_False by lia. rewrite decide_True by lia. done.
    + assert (fit_now (update_every s) (N_of s) (S (length (ydata s))) = false) as Hno.
      { unfold fit_now, decision. rewrite Hu.
        destruct (samples (y s) evs); [done|]. cbn in Hlen.
        by rewrite decide_True by lia. }
      rewrite Hno, app_nil_r in He.
      rewrite IH.
      * by rewrite He.
      * by destruct Hc as (_ & _ & _ & _ & ->).
      * by eapply Forall_well_formed_config.
      * by destruct Hc as (_ & -> & _).
      * destruct Hc as (Hm & -> & _). rewrite Hy. unfold N_of. rewrite Hm.
        fold (N_of s). cbn in Hlen. rewrite length_app. cbn. lia.
  - assert (after_event s data = s) as ->.
    { unfold after_event. by rewrite Hyv. }
    apply IH; done.
Qed.

(** C4, amended: with [update_every] not None and a model with N > 0 free
    parameters, the moment the N-th event with the dependent field has been
    delivered the coordinator has called [model.fit] exactly once, on the N
    samples, and has emitted nothing else; in any delivery of documents,
    whatever they are, every call of [model.fit] has at least N samples, and
    as long as no stop is delivered [update_fit] is never reached with fewer
    (no warning); whereas [stop] on a coordinator that is stale with fewer
    than N samples does attempt the fit: it reaches [update_fit], which
    warns and calls nothing. *)
Theorem first_possible_fit s evs every :
  bound s → update_every s = Some every →
  Forall (well_formed s) evs →
  0 < N_of s → length (samples (y s) evs) = N_of s →
  (∃ s', deliver (Start :: (Event <$> evs)) s = (Ret tt, s')
         ∧ ydata s' = samples (y s) evs
         ∧ effects s' = effects s ++ [EFit (ydata s') (kwargs_of s')])
  ∧ (∀ docs, ∃ t, effects (deliver docs s).2 = effects s ++ t
                  ∧ Forall (λ n, N_of s ≤ n) (fit_counts t)
                  ∧ (Stop ∉ docs → warnings t = []))
  ∧ (∀ s1, stale s1 = true → length (ydata s1) < N_of s1 →
           stop s1 = (Ret tt, emit (EWarn (N_of s1)) s1)).
Proof.
  intros Hb Hu Hwf HN Hlen.
  split; [|split; [intros docs; by apply deliver_effects|]].
  2:{ intros s1 Hst Hshort. rewrite stop_run, Hst. by apply update_fit_short. }
  exists (foldl after_event (cleared s) evs). split; [|split].
  - rewrite deliver_start. apply deliver_events.
    + by apply cleared_bound.
    + by apply cleared_well_formed.
    + right. cbn. change (y (cleared s)) with (y s).
      change (N_of (cleared s)) with (N_of s). lia.
  - by rewrite foldl_after_event_ydata by (by apply cleared_well_formed).
  - apply (first_fit_effect evs (cleared s) every); [done| | |].
    + by apply cleared_well_formed.
    + change (y (cleared s)) with (y s). intros Hnil. rewrite Hnil in Hlen.
      cbn in Hlen. lia.
    + cbn. change (y (cleared s)) with (y s). by rewrite Hlen.
Qed.

(** ** The series and the result at the end of a run *)

Lemma column_cons yname f data evs :
  column yname f (data :: evs) =
    (if data !! yname is Some _ then option_list (data !! f) else [])
    ++ column yname f evs.
Proof.
  unfold column. cbn. destruct (data !! yname); [|done]. by destruct (data !! f).
Qed.

Lemma after_event_series s data k f :
  well_formed s data → _independent_vars s !! k = Some f →
  independent_vars_data (after_event s data) !! k =
    (λ v, v ++ (if data !! y s is Some _ then option_list (data !! f) else []))
    <$> independent_vars_data s !! k.
Proof.
  intros Hwf Hk. destruct (data !! y s) as [yv|] eqn:Hy.
  - assert (present data s) as Hall by (apply Hwf; eauto).
    destruct (after_event_stored s data yv Hy Hall) as [_ ->].
    destruct (Hall k f Hk) as [x Hx].
    rewrite map_lookup_zip_with, (lookup_fields_present _ _ _ _ _ Hk Hx), Hx.
    by destruct (independent_vars_data s !! k).
  - unfold after_event. rewrite Hy.
    destruct (independent_vars_data s !! k); cbn; by rewrite ?app_nil_r.
Qed.

Lemma foldl_after_event_series evs s k f :
  Forall (well_formed s) evs → _independent_vars s !! k = Some f →
  independent_vars_data (foldl after_event s evs) !! k =
    (λ v, v ++ column (y s) f evs) <$> independent_vars_data s !! k.
Proof.
  revert s. induction evs as [|data evs IH]; intros s Hwf Hk; cbn [foldl].
  - destruct (independent_vars_data s !! k); cbn; by rewrite ?app_nil_r.
  - apply Forall_cons in Hwf as [Hd Hwf].
    pose proof (after_event_config s data) as Hc.
    rewrite IH.
    + rewrite (after_event_series _ _ _ _ Hd Hk), column_cons.
      destruct Hc as (_ & -> & _).
      destruct (independent_vars_data s !! k); cbn; by rewrite ?app_assoc.
    + by eapply Forall_well_formed_config.
    + by destruct Hc as (_ & _ & -> & _).
Qed.

Lemma after_event_fresh s data : fresh s → fresh (after_event s data).
Proof.
  intros Hf. unfold after_event. destruct (data !! y s) as [yv|]; [|done].
  case_decide; [|done].
  destruct (decision _ _ _) as [[]|]; try done.
  intros _. by right.
Qed.

Lemma foldl_after_event_fresh evs s : fresh s → fresh (foldl after_event s evs).
Proof.
  revert s. induction evs as [|data evs IH]; intros s Hf; cbn [foldl]; [done|].
  by apply IH, after_event_fresh.
Qed.

Lemma cleared_fresh s : fresh (cleared s).
Proof. intros _. by left. Qed.

Lemma cleared_series evs s :
  bound s → Forall (well_formed s) evs →
  independent_vars_data (foldl after_event (cleared s) evs)
  = (λ f, column (y s) f evs) <$> _independent_vars s.
Proof.
  intros Hb Hwf. apply map_eq. intros k. rewrite lookup_fmap.
  destruct (_independent_vars s !! k) as [f|] eqn:Hk; cbn.
  - rewrite (foldl_after_event_series _ _ k f);
      [|by apply cleared_well_formed|done].
    cbn. rewrite lookup_fmap.
    assert (is_Some (independent_vars_data s !! k)) as [v ->]; [|done].
    apply elem_of_dom. rewrite Hb. apply elem_of_dom. eauto.
  - apply not_elem_of_dom.
    rewrite (foldl_after_event_bound evs (cleared s) (cleared_bound s Hb)).
    destruct (foldl_after_event_config evs (cleared s)) as (_ & _ & -> & _).
    by apply not_elem_of_dom.
Qed.

(** C5: a run with at least N events carrying the dependent field (and at
    least one) ends, after [stop], with the stale flag down and the stored
    result equal to the fit of all the samples of the run: every dependent
    value, every series of a bound field and the initial guesses, whatever
    [update_every] is (None included; 0 excepted, which raises); and [stop]
    on a stale coordinator with at least N samples makes that fit. *)
Theorem stop_fits_all_samples s evs :
  bound s → Forall (well_formed s) evs → update_every s ≠ Some 0%Z →
  samples (y s) evs ≠ [] → N_of s ≤ length (samples (y s) evs) →
  (∃ s', deliver (Start :: (Event <$> evs) ++ [Stop]) s = (Ret tt, s')
         ∧ stale s' = false
         ∧ ydata s' = samples (y s) evs
         ∧ independent_vars_data s' = (λ f, column (y s) f evs) <$> _independent_vars s
         ∧ result s' =
             Some (fit (_model s) (samples (y s) evs)
                     ((KScalar <$> init_guess s)
                      ∪ (KSeries <$> ((λ f, column (y s) f evs) <$> _independent_vars s)))))
  ∧ (∀ s1, stale s1 = true → N_of s1 ≤ length (ydata s1) →
           stop s1 = (Ret tt, fitted s1)).
Proof.
  intros Hb Hwf Hu Hne HN. split.
  2:{ intros s1 Hst Hlen. rewrite stop_run, Hst. by apply update_fit_enough. }
  set (s2 := foldl after_event (cleared s) evs).
  assert (deliver (Event <$> evs) (cleared s) = (Ret tt, s2)) as Hrun.
  { apply deliver_events; [by apply cleared_bound|by apply cleared_well_formed|].
    by left. }
  assert (ydata s2 = samples (y s) evs) as Hy.
  { unfold s2. by rewrite foldl_after_event_ydata by (by apply cleared_well_formed). }
  pose proof (cleared_series evs s Hb Hwf) as Hser. fold s2 in Hser.
  pose proof (foldl_after_event_fresh evs _ (cleared_fresh s)) as Hfresh.
  fold s2 in Hfresh.
  destruct (foldl_after_event_config evs (cleared s)) as (Hm & _ & _ & Hg & _).
  fold s2 in Hm, Hg. cbn in Hm, Hg.
  assert (N_of s2 = N_of s) as HN2 by (unfold N_of; by rewrite Hm).
  assert (kwargs_of s2 =
          (KScalar <$> init_guess s)
          ∪ (KSeries <$> ((λ f, column (y s) f evs) <$> _independent_vars s)))
    as Hkw by (unfold kwargs_of; by rewrite Hg, Hser).
  rewrite deliver_start, (deliver_app _ [Stop] _ _ Hrun), run_deliver_cons.
  cbn [dispatch]. rewrite stop_run.
  destruct (stale s2) eqn:Hst.
  - rewrite update_fit_enough by (rewrite HN2, Hy; lia).
    exists (fitted s2). cbn. by rewrite Hm, Hy, Hkw.
  - exists s2. destruct (Hfresh Hst) as [Hnil|Hres].
    + by rewrite Hy in Hnil.
    + by rewrite Hres, Hm, Hy, Hkw.
Qed.

(** C10: with [update_every = 0], the events of a run are processed normally
    as long as the sample count does not exceed N, and the first event that
    brings the count above N raises ZeroDivisionError out of [event], its
    sample already stored. *)
Theorem zero_update_every_raises s evs data yv :
  bound s → update_every s = Some 0%Z →
  Forall (well_formed s) evs →
  (length (samples (y s) evs) ≤ N_of s →
     ∃ s', deliver (Start :: (Event <$> evs)) s = (Ret tt, s'))
  ∧ (length (samples (y s) evs) = N_of s →
     data !! y s = Some yv → present data s →
     ∃ s', deliver (Start :: (Event <$> evs) ++ [Event data]) s
             = (Raise ZeroDivisionError, s')
           ∧ ydata s' = samples (y s) evs ++ [yv]).
Proof.
  intros Hb Hu Hwf.
  assert (length (samples (y s) evs) ≤ N_of s →
          deliver (Event <$> evs) (cleared s)
          = (Ret tt, foldl after_event (cleared s) evs)) as Hrun.
  { intros Hle. apply deliver_events;
      [by apply cleared_bound|by apply cleared_well_formed|].
    right. cbn. change (y (cleared s)) with (y s). exact Hle. }
  split.
  - intros Hle. eexists. rewrite deliver_start. by apply Hrun.
  - intros Hlen Hy Hall. set (s2 := foldl after_event (cleared s) evs).
    rewrite deliver_start, (deliver_app _ [Event data] _ s2) by (apply Hrun; lia).
    rewrite run_deliver_cons. cbn [dispatch].
    pose proof (foldl_after_event_config evs (cleared s)) as (Hm & Hyn & Hiv & _ & Hue).
    fold s2 in Hm, Hyn, Hiv, Hue. cbn in Hm, Hyn, Hiv, Hue.
    assert (ydata s2 = samples (y s) evs) as Hys.
    { unfold s2. by rewrite foldl_after_event_ydata by (by apply cleared_well_formed). }
    assert (present data s2) as Hall2 by (unfold present; by rewrite Hiv).
    assert (decision (update_every s2) (N_of s2) (S (length (ydata s2)))
            = Raise ZeroDivisionError) as Hdec.
    { unfold decision, N_of. rewrite Hue, Hu, Hm, Hys, Hlen. fold (N_of s).
      rewrite decide_False by lia. rewrite decide_False by lia. done. }
    rewrite event_run
      by apply (foldl_after_event_bound evs _ (cleared_bound s Hb)).
    rewrite Hyn, Hy, decide_True, Hdec by done.
    eexists. split; [reflexivity|].
    destruct (after_event_stored s2 data yv) as [-> _]; [by rewrite Hyn|done|].
    by rewrite Hys.
Qed.

(** C3, amended: an event whose document lacks the dependent field is
    ignored, with no exception and the coordinator unchanged.  The tolerance
    stops there: a document that has the dependent field is expected to carry
    every bound field, and then (with [update_every] not 0) [event] returns
    normally; when a bound field is missing [event] raises KeyError and
    stores nothing. *)
Theorem event_tolerates_missing_dependent_field s data :
  bound s →
  (data !! y s = None → event data s = (Ret tt, s))
  ∧ (is_Some (data !! y s) → present data s → update_every s ≠ Some 0%Z →
     ∃ s', event data s = (Ret tt, s'))
  ∧ (is_Some (data !! y s) → ¬ present data s →
     event data s = (Raise KeyError, s)).
Proof.
  intros Hb. split; [by apply event_skip|]. split.
  - intros [yv Hy] Hall Hu. rewrite event_run, Hy, decide_True by done.
    destruct (decision_safe (update_every s) (N_of s) (S (length (ydata s))))
      as [b ->]; [by left|]. eauto.
  - intros [yv Hy] Hno. by eapply event_missing_field.
Qed.

End WithTypes.

(** ** The theorems at work on a coordinator *)

Lemma demo_built every : Demo.built every = Ret (Demo.coordinator every).
Proof. by vm_compute. Qed.

Lemma series_have_equal_length_witness :
  aligned (observe [CStart; CEvent (Demo.reading 10 1); CEvent {["det" := 5%Z]};
                    CStop; CBind {["x" := "motor"]}; CEvent (Demo.reading 20 2)]
             (Demo.coordinator (Some 2%Z))).
Proof.
  assert (__init__ Demo.model "det" {["x" := "motor"]} None (Some 2%Z)
          = Ret (Demo.coordinator (Some 2%Z))) as Hinit
    by (vm_compute; reflexivity).
  exact (proj1 (series_have_equal_length _ _ _ _ _ _
                  [CStart; CEvent (Demo.reading 10 1); CEvent {["det" := 5%Z]};
                   CStop; CBind {["x" := "motor"]}; CEvent (Demo.reading 20 2)]
                  Hinit)).
Defined.

Lemma insufficient_data_only_warns_witness :
  ∃ s', update_fit (set_ydata [7%Z] (Demo.coordinator None)) = (Ret tt, s')
        ∧ effects s' = [EWarn 2]
        ∧ result s' = None.
Proof.
  destruct (insufficient_data_only_warns (set_ydata [7%Z] (Demo.coordinator None)))
    as (s' & Hrun & Heff & Hres & _).
  - vm_compute. lia.
  - exists s'. split; [exact Hrun|]. split; [exact Heff|exact Hres].
Defined.

Lemma demo_bound every : bound (Demo.coordinator every).
Proof. vm_compute. reflexivity. Defined.

Lemma demo_well_formed every motor det :
  well_formed (Demo.coordinator every) (Demo.reading motor det).
Proof.
  intros _ k v Hk. cbn in Hk. apply lookup_singleton_Some in Hk as [<- <-].
  by eexists.
Defined.

Lemma demo_four_well_formed every :
  Forall (well_formed (Demo.coordinator every)) Demo.four_readings.
Proof. repeat constructor; apply demo_well_formed. Defined.

Lemma fits_follow_cadence_witness :
  ∃ s', deliver (Start :: (Event <$> Demo.four_readings)) (Demo.coordinator (Some 2%Z))
        = (Ret tt, s')
        ∧ fit_counts (effects s') = [2; 3].
Proof.
  destruct (fits_follow_cadence (Demo.coordinator (Some 2%Z)) Demo.four_readings 2%Z)
    as (s' & Hrun & Hfits & _).
  - apply demo_bound.
  - reflexivity.
  - lia.
  - apply demo_four_well_formed.
  - exists s'. split; [exact Hrun|]. rewrite Hfits. vm_compute. reflexivity.
Defined.

(** C1 as stated fails: with N = 2 and [update_every = 2], four events give
    fits at the sample counts 2 and 3, not at 2 and 4. *)
Lemma cadence_counterexample :
  fit_counts (effects (deliver (Start :: (Event <$> Demo.four_readings))
                         (Demo.coordinator (Some 2%Z))).2) = [2; 3]
  ∧ filter (due_every_k_from_N (N_of (Demo.coordinator (Some 2%Z))) 2) (seq 1 4) = [2; 4]
  ∧ fit_counts (effects (deliver (Start :: (Event <$> Demo.four_readings))
                           (Demo.coordinator (Some 2%Z))).2)
    ≠ filter (due_every_k_from_N (N_of (Demo.coordinator (Some 2%Z))) 2) (seq 1 4).
Proof. vm_compute. repeat split; [reflexivity..|discriminate]. Qed.

Lemma first_possible_fit_witness :
  ∃ s', deliver (Start :: (Event <$> [Demo.reading 10 1; Demo.reading 20 2]))
          (Demo.coordinator (Some 5%Z)) = (Ret tt, s')
        ∧ ydata s' = [1%Z; 2%Z]
        ∧ effects s' = [EFit (ydata s') (kwargs_of s')].
Proof.
  destruct (first_possible_fit (Demo.coordinator (Some 5%Z))
              [Demo.reading 10 1; Demo.reading 20 2] 5%Z)
    as [(s' & Hrun & Hy & Heff) _].
  - apply demo_bound.
  - reflexivity.
  - repeat constructor; apply demo_well_formed.
  - vm_compute. lia.
  - reflexivity.
  - exists s'. split; [exact Hrun|]. split; [exact Hy|exact Heff].
Defined.

(** C4 as stated fails: a run of one event with N = 2 ends with [stop]
    attempting a fit on the one sample; the attempt warns, [model.fit] is
    not called and the coordinator stays stale. *)
Lemma early_attempt_counterexample :
  N_of (Demo.coordinator (Some 1%Z)) = 2
  ∧ ∃ s', deliver [Start; Event (Demo.reading 10 1); Stop] (Demo.coordinator (Some 1%Z))
          = (Ret tt, s')
          ∧ ydata s' = [1%Z]
          ∧ effects s' = [EWarn 2]
          ∧ stale s' = true.
Proof. split; [reflexivity|]. eexists. vm_compute. repeat split. Qed.

Lemma stop_fits_all_samples_witness :
  ∃ s', deliver (Start :: (Event <$> Demo.four_readings) ++ [Stop])
          (Demo.coordinator None) = (Ret tt, s')
        ∧ stale s' = false
        ∧ result s' = Some ([1; 2; 3; 4]%Z, {["x" := KSeries [10; 20; 30; 40]%Z]}).
Proof.
  destruct (stop_fits_all_samples (Demo.coordinator None) Demo.four_readings)
    as [(s' & Hrun & Hst & _ & _ & Hres) _].
  - apply demo_bound.
  - apply demo_four_well_formed.
  - discriminate.
  - discriminate.
  - vm_compute. lia.
  - exists s'. split; [exact Hrun|]. split; [exact Hst|]. rewrite Hres.
    vm_compute. reflexivity.
Defined.

Lemma zero_update_every_raises_witness :
  ∃ s', deliver (Start :: (Event <$> [Demo.reading 10 1; Demo.reading 20 2])
                   ++ [Event (Demo.reading 30 3)])
          (Demo.coordinator (Some 0%Z)) = (Raise ZeroDivisionError, s')
        ∧ ydata s' = [1; 2; 3]%Z.
Proof.
  destruct (zero_update_every_raises (Demo.coordinator (Some 0%Z))
              [Demo.reading 10 1; Demo.reading 20 2] (Demo.reading 30 3) 3%Z)
    as [_ Hraise].
  - apply demo_bound.
  - reflexivity.
  - repeat constructor; apply demo_well_formed.
  - apply Hraise.
    + reflexivity.
    + reflexivity.
    + apply demo_well_formed. by eexists.
Defined.

Lemma event_tolerates_missing_dependent_field_witness :
  event {["temperature" := 3%Z]} (Demo.coordinator (Some 1%Z))
  = (Ret tt, Demo.coordinator (Some 1%Z)).
Proof.
  apply (event_tolerates_missing_dependent_field (Demo.coordinator (Some 1%Z))).
  - apply demo_bound.
  - reflexivity.
Defined.

(** C3 as stated fails: an event document with the dependent field and
    without the field bound to the independent variable makes [event] raise
    KeyError. *)
Lemma missing_bound_field_counterexample :
  Demo.built (Some 1%Z) = Ret (Demo.coordinator (Some 1%Z))
  ∧ event {["det" := 1%Z]} (Demo.coordinator (Some 1%Z))
    = (Raise KeyError, Demo.coordinator (Some 1%Z)).
Proof. split; vm_compute; reflexivity. Qed.

End LiveFitFacts.

(** * Properties of center_of_mass *)

Module CenterOfMassFacts.
Import PeakStats.
Import PrimFloat.

(** ** The formula, whatever the arithmetic *)

Lemma zip_with_seq {F} (f : F → nat → F) (d : F) (w : list F) (k : nat) :
  zip_with f w (seq k (length w))
  = (λ i, f (nth (i - k) w d) i) <$> seq k (length w).
Proof.
  revert k. induction w as [|a w IH]; intros k; [done|].
  cbn [length seq zip_with fmap list_fmap]. rewrite Nat.sub_diag. cbn [nth].
  f_equal. rewrite IH. apply list_fmap_ext. intros j i Hi.
  apply lookup_seq in Hi as [-> _].
  replace (S k + j - k)%nat with (S (S k + j - S k)) by lia. done.
Qed.

Lemma products_by_index {F} {U : Np.Ufunc F} (w : list F) :
  zip_with Np.multiply w (Np.arange (length w)) = weighted w.
Proof.
  unfold Np.arange, weighted, Np.item.
  rewrite zip_with_fmap_r.
  rewrite (zip_with_seq (λ a i, Np.multiply a (Np.of_nat i)) (Np.of_nat 0)).
  apply list_fmap_ext. intros j i Hi. by rewrite Nat.sub_0_r.
Qed.

(** ** Exact arithmetic *)

Lemma sum_snoc (w : list Q) a : Np.Exact.sum (w ++ [a]) = (Np.Exact.sum w + a)%Q.
Proof. unfold Np.Exact.sum. by rewrite foldl_app. Qed.

Lemma big_sum_ext (f g : nat → Q) n :
  (∀ i, (i < n)%nat → f i == g i) → big_sum f n == big_sum g n.
Proof.
  induction n as [|n IH]; intros Hfg; [reflexivity|].
  cbn. rewrite IH by (intros i Hi; apply Hfg; lia).
  rewrite (Hfg n) by lia. reflexivity.
Qed.

Lemma item_app_l (w : list Q) a i :
  (i < length w)%nat → Np.item (w ++ [a]) i = Np.item w i.
Proof. intros Hi. unfold Np.item. by rewrite app_nth1. Qed.

Lemma item_app_r (w : list Q) a : Np.item (w ++ [a]) (length w) = a.
Proof. unfold Np.item. by rewrite nth_middle. Qed.

Lemma sum_big_sum (w : list Q) :
  Np.Exact.sum w == big_sum (λ i, Np.item w i) (length w).
Proof.
  induction w as [|a w IH] using rev_ind; [reflexivity|].
  rewrite sum_snoc, length_app, Nat.add_1_r. cbn [big_sum].
  rewrite item_app_r, IH.
  rewrite (big_sum_ext (λ i, Np.item (w ++ [a]) i) (λ i, Np.item w i)).
  - reflexivity.
  - intros i Hi. by rewrite item_app_l.
Qed.

Lemma arange_S (n : nat) :
  Np.arange (S n) = Np.arange n ++ [inject_Z (Z.of_nat n)].
Proof. unfold Np.arange. by rewrite seq_S, fmap_app. Qed.

Lemma length_arange {F} {U : Np.Ufunc F} n : length (Np.arange (F := F) n) = n.
Proof. unfold Np.arange. by rewrite length_fmap, length_seq. Qed.

Lemma weighted_sum_big_sum (w : list Q) :
  Np.Exact.sum (zip_with Qmult w (Np.arange (length w)))
  == big_sum (λ i, Np.item w i * inject_Z (Z.of_nat i))%Q (length w).
Proof.
  induction w as [|a w IH] using rev_ind; [reflexivity|].
  rewrite length_app, Nat.add_1_r, arange_S.
  rewrite zip_with_app by (by rewrite length_arange).
  cbn [zip_with]. rewrite sum_snoc. cbn [big_sum].
  rewrite item_app_r, IH.
  rewrite (big_sum_ext (λ i, Np.item (w ++ [a]) i * inject_Z (Z.of_nat i))%Q
                       (λ i, Np.item w i * inject_Z (Z.of_nat i))%Q).
  - reflexivity.
  - intros i Hi. by rewrite item_app_l.
Qed.

(** C9, amended: on the float64 weights [0, 1, 1, 0] the function returns
    the one coordinate 1.5; on every one-dimensional array it returns the
    one coordinate np.sum(weight[i] * i) / np.sum(weight), each product, sum
    and quotient being numpy's, whatever the arithmetic; and in exact
    arithmetic, for weights whose sum is not zero, that coordinate is the
    classic discrete centroid (sum of w[i] * i) / (sum of w[i]). *)
Theorem center_of_mass_is_classic_centroid :
  center_of_mass Demo.weights_0110 = [1.5%float]
  ∧ (∀ F (U : Np.Ufunc F) (w : list F),
       center_of_mass w = [Np.divide (Np.sum (weighted w)) (Np.sum w)])
  ∧ (∀ w : list Q,
       ¬ big_sum (λ i, Np.item w i) (length w) == 0 →
       ∃ c, center_of_mass w = [c] ∧ c == classic_centroid w).
Proof.
  split; [|split].
  - vm_compute. reflexivity.
  - intros F U w. unfold center_of_mass. cbn [fmap list_fmap].
    by rewrite products_by_index.
  - intros w _. eexists. split; [reflexivity|].
    unfold classic_centroid.
    cbn [Np.divide Np.sum Np.multiply Np.ufunc Np.exact Np.exact_ufunc].
    by rewrite weighted_sum_big_sum, sum_big_sum.
Qed.

Lemma center_of_mass_is_classic_centroid_witness :
  ∃ c, center_of_mass [0; 1; 1; 0]%Q = [c] ∧ c == classic_centroid [0; 1; 1; 0]%Q.
Proof.
  apply (proj2 (proj2 center_of_mass_is_classic_centroid) [0; 1; 1; 0]%Q).
  vm_compute. discriminate.
Defined.

(** C9 as stated fails: on the float64 weights [0, 0, 0, 0.1] the function
    returns 3.0000000000000004 (0.1 * 3 rounds up to 0.30000000000000004),
    which is not 3.0; the classic discrete centroid of these weights, which
    are the rationals [0, 0, 0, 3602879701896397 / 2**55], is 3. *)
Lemma rounded_centroid_counterexample :
  center_of_mass Demo.weights_tail = [0x1.8000000000001p+1%float]
  ∧ PrimFloat.eqb 0x1.8000000000001p+1 3 = false
  ∧ classic_centroid Demo.weights_tail_exact == 3.
Proof. repeat split; vm_compute; reflexivity. Qed.

End CenterOfMassFacts.

(** * Properties of PeakStats *)

Module PeakStatsFacts.
Import PeakStats.

Section WithNumpy.
Context {F : Type} {np : Np.Numpy F}.
Local Abbreviation self := (self F).
Local Abbreviation value := (value F).

Implicit Types (s : self).

(** ** The loops over the stats fields *)

Lemma setattr_loop (g : string * value → value) (body : string * value → py self unit)
    (l : list (string * value)) s :
  NoDup l.*1 →
  (∀ fv s, fv ∈ l → body fv s = (Ret tt, set_attrs (<[fv.1 := g fv]> (attrs s)) s)) →
  ∃ A : gmap string value,
    for_each l body s = (Ret tt, set_attrs A s)
    ∧ ∀ k, (∀ v, (k, v) ∈ l → A !! k = Some (g (k, v)))
           ∧ (k ∉ l.*1 → A !! k = attrs s !! k).
Proof.
  revert s. induction l as [|[k0 v0] l IH]; intros s Hnd Hbody.
  - exists (attrs s). split; [by destruct s|]. intros k. split; [|done].
    intros v Hin. by apply elem_of_nil in Hin.
  - apply NoDup_cons in Hnd as [Hk0 Hnd].
    destruct (IH (set_attrs (<[k0 := g (k0, v0)]> (attrs s)) s) Hnd)
      as (A & Hrun & HA).
    { intros fv s' Hin. apply Hbody. by right. }
    exists A. split.
    + rewrite run_for_each_cons, Hbody by left. exact Hrun.
    + intros k. destruct (HA k) as [Hin Hout]. split.
      * intros v [[= -> ->]|Hv]%elem_of_cons.
        -- rewrite Hout by done. cbn. apply lookup_insert_eq.
        -- by apply Hin.
      * intros Hk. rewrite Hout by set_solver. cbn.
        apply lookup_insert_ne. set_solver.
Qed.

Lemma reset_loop (m : gmap string value) s :
  for_each (map_to_list m) (λ fv, setattr fv.1 fv.2) s
  = (Ret tt, set_attrs (m ∪ attrs s) s).
Proof.
  destruct (setattr_loop (λ fv, fv.2) (λ fv, setattr fv.1 fv.2) (map_to_list m) s)
    as (A & -> & HA).
  - apply NoDup_fst_map_to_list.
  - done.
  - do 2 f_equal. apply map_eq. intros k. destruct (HA k) as [Hin Hout].
    rewrite lookup_union. destruct (m !! k) as [v|] eqn:Hk.
    + rewrite (Hin v) by (by apply elem_of_map_to_list).
      by destruct (attrs s !! k).
    + rewrite Hout; [by destruct (attrs s !! k)|].
      intros [[k' v] [-> Hkv]]%list_elem_of_fmap.
      apply elem_of_map_to_list in Hkv. cbn in Hk. congruence.
Qed.

Lemma copy_loop (m stats : gmap string value) s :
  dom m ⊆ dom stats →
  for_each (map_to_list m) (λ fv, v ← getattr stats fv.1; setattr fv.1 v) s
  = (Ret tt, set_attrs (copied m stats (attrs s)) s).
Proof.
  intros Hdom.
  destruct (setattr_loop (λ fv, default VNone (stats !! fv.1))
              (λ fv, v ← getattr stats fv.1; setattr fv.1 v) (map_to_list m) s)
    as (A & -> & HA).
  - apply NoDup_fst_map_to_list.
  - intros [k v] s' Hin. apply elem_of_map_to_list in Hin.
    assert (is_Some (stats !! k)) as [v' Hv'].
    { apply elem_of_dom, Hdom, elem_of_dom. eauto. }
    cbn. unfold mbind, py_mbind, py_bind, getattr. by rewrite Hv'.
  - do 2 f_equal. apply map_eq. intros k. destruct (HA k) as [Hin Hout].
    unfold copied. rewrite lookup_union, map_lookup_imap.
    destruct (m !! k) as [v|] eqn:Hk; cbn.
    + rewrite (Hin v) by (by apply elem_of_map_to_list). cbn.
      assert (is_Some (stats !! k)) as [v' ->].
      { apply elem_of_dom, Hdom, elem_of_dom. eauto. }
      by destruct (attrs s !! k).
    + rewrite Hout; [by destruct (attrs s !! k)|].
      intros [[k' v] [-> Hkv]]%list_elem_of_fmap.
      apply elem_of_map_to_list in Hkv. cbn in Hk. congruence.
Qed.

(** ** [_calc_stats] and [compute] in one equation each *)

Lemma argmin_nonempty (a : list F) : a ≠ [] → ∃ i, Np.argmin a = Ret i.
Proof.
  destruct a as [|v a]; [done|]. intros _.
  destruct (Np.argmin_cons v a) as (i & Hi & _). eauto.
Qed.

Lemma argmax_nonempty (a : list F) : a ≠ [] → ∃ i, Np.argmax a = Ret i.
Proof.
  destruct a as [|v a]; [done|]. intros _.
  destruct (Np.argmax_cons v a) as (i & Hi & _). eauto.
Qed.

Lemma calc_stats_run (x y : list F) fields edge_count :
  used_y x y edge_count ≠ [] →
  ∃ vmin vmax vcom,
    _calc_stats x y fields edge_count
    = Ret (record_crossings (half_max_crossings x (used_y x y edge_count))
             (<["com" := vcom]> (<["max" := vmax]> (<["min" := vmin]>
                (with_line x y fields edge_count))))).
Proof.
  intros Hne. unfold _calc_stats, used_y, with_line in *.
  destruct edge_count as [e|].
  - destruct (edge_line x y e) as [m b]. cbn [fst snd].
    destruct (argmin_nonempty _ Hne) as [imin ->].
    destruct (argmax_nonempty _ Hne) as [imax ->].
    do 3 eexists. unfold record_crossings, half_max_crossings. reflexivity.
  - destruct (argmin_nonempty _ Hne) as [imin ->].
    destruct (argmax_nonempty _ Hne) as [imax ->].
    do 3 eexists. unfold record_crossings, half_max_crossings. reflexivity.
Qed.

Lemma calc_stats_empty (x y : list F) fields edge_count :
  used_y x y edge_count = [] →
  _calc_stats x y fields edge_count = Raise ValueError.
Proof.
  intros Hnil. unfold _calc_stats, used_y in *. destruct edge_count as [e|].
  - destruct (edge_line x y e) as [m b]. by rewrite Hnil, Np.argmin_nil.
  - by rewrite Hnil, Np.argmin_nil.
Qed.

Lemma dom_record_crossings cs (fields : gmap string value) :
  dom fields ⊆ dom (record_crossings cs fields).
Proof.
  unfold record_crossings. destruct cs; [done|].
  case_decide; rewrite ?dom_insert; set_solver.
Qed.

Lemma calc_stats_dom (x y : list F) fields edge_count stats :
  _calc_stats x y fields edge_count = Ret stats → dom fields ⊆ dom stats.
Proof.
  destruct (used_y x y edge_count) as [|v0 y0] eqn:Hy.
  - by rewrite calc_stats_empty.
  - destruct (calc_stats_run x y fields edge_count) as (vmin & vmax & vcom & ->).
    { by rewrite Hy. }
    intros [= <-]. etrans; [|apply dom_record_crossings].
    rewrite !dom_insert. unfold with_line.
    destruct edge_count; rewrite ?dom_insert; set_solver.
Qed.

Lemma compute_run s :
  let xs := (collected s).*1 in
  let ys := (collected s).*2 in
  let s0 := set_attrs (_stats_fields s ∪ attrs s) s in
  compute s =
    if decide (length xs = 0%nat) then (Ret tt, s0)
    else
      match _calc_stats xs ys (_stats_fields s) (_edge_count s) with
      | Raise e => (Raise e, set_data xs ys s0)
      | Ret stats =>
        let s1 := set_attrs (copied (_stats_fields s) stats (attrs s0))
                    (set_data xs ys s0) in
        if compute_derivative s then
          match _calc_stats (Np.slice_from 1 xs) (Np.diff ys)
                  (<["y" := VArr (Np.diff ys)]>
                     (<["x" := VArr (Np.slice_from 1 xs)]> (_stats_fields s)))
                  (_edge_count s) with
          | Ret d => (Ret tt, set_der (Some (Some d)) s1)
          | Raise e => (Raise e, s1)
          end
        else (Ret tt, s1)
      end.
Proof.
  intros xs ys s0. unfold compute. run. rewrite reset_loop. fold s0. cbn iota.
  fold xs ys. case_decide; [done|]. run.
  destruct (_calc_stats xs ys (_stats_fields s) (_edge_count s)) as [stats|e] eqn:Hcalc;
    cbn [lift]; run; [|done].
  rewrite copy_loop by (by eapply calc_stats_dom). cbn iota.
  destruct (compute_derivative s); [|done]. run.
  by destruct (_calc_stats (Np.slice_from 1 xs) _ _ _).
Qed.

Lemma collected_lengths s : length (collected s).*1 = length (collected s).*2.
Proof. by rewrite !length_fmap. Qed.

Lemma used_y_nonempty (x y : list F) edge_count :
  length x = length y → x ≠ [] → used_y x y edge_count ≠ [].
Proof.
  intros Hlen Hx. unfold used_y. destruct edge_count as [e|].
  - destruct (edge_line x y e) as [m b]. by destruct x, y.
  - by destruct x, y.
Qed.

Lemma length_used_y (x y : list F) edge_count :
  length x = length y → length (used_y x y edge_count) = length y.
Proof.
  intros Hlen. unfold used_y. destruct edge_count as [e|]; [|done].
  destruct (edge_line x y e) as [m b]. rewrite length_zip_with. lia.
Qed.

Lemma length_diff (a : list F) : length (Np.diff a) = (length a - 1)%nat.
Proof. unfold Np.diff. rewrite length_zip_with. destruct a; cbn; lia. Qed.

Lemma length_slice_from_1 (a : list F) :
  length (Np.slice_from 1 a) = (length a - 1)%nat.
Proof.
  unfold Np.slice_from. rewrite decide_True by lia.
  rewrite length_drop. lia.
Qed.

(** The attributes that [compute] leaves when the run has data. *)
Lemma attrs_after_compute s :
  let xs := (collected s).*1 in
  let ys := (collected s).*2 in
  xs ≠ [] →
  ∃ vmin vmax vcom,
    let stats :=
      record_crossings (half_max_crossings xs (used_y xs ys (_edge_count s)))
        (<["com" := vcom]> (<["max" := vmax]> (<["min" := vmin]>
           (with_line xs ys (_stats_fields s) (_edge_count s))))) in
    attrs (compute s).2 = copied (_stats_fields s) stats (_stats_fields s ∪ attrs s)
    ∧ _stats_fields (compute s).2 = _stats_fields s.
Proof.
  intros xs ys Hne.
  destruct (calc_stats_run xs ys (_stats_fields s) (_edge_count s))
    as (vmin & vmax & vcom & Hcalc).
  { apply used_y_nonempty; [apply collected_lengths|done]. }
  exists vmin, vmax, vcom. rewrite compute_run. fold xs ys.
  rewrite decide_False by (by destruct xs). rewrite Hcalc. cbn zeta.
  destruct (compute_derivative s); [|done].
  by destruct (_calc_stats (Np.slice_from 1 xs) _ _ _).
Qed.


Lemma lookup_copied (fields stats attrs0 : gmap string value) k v :
  fields !! k = Some v → is_Some (stats !! k) →
  copied fields stats attrs0 !! k = stats !! k.
Proof.
  intros Hk [v' Hv']. unfold copied.
  rewrite lookup_union, map_lookup_imap, Hk. cbn. rewrite Hv'.
  by destruct (attrs0 !! k).
Qed.

Lemma lookup_copied_None (fields stats attrs0 : gmap string value) k :
  fields !! k = None → copied fields stats attrs0 !! k = attrs0 !! k.
Proof.
  intros Hk. unfold copied.
  rewrite lookup_union, map_lookup_imap, Hk. cbn. by destruct (attrs0 !! k).
Qed.


Lemma lookup_base (x y : list F) fields edge_count vmin vmax vcom k :
  k ≠ "com" → k ≠ "max" → k ≠ "min" → k ≠ "lin_bkg" →
  (<["com" := vcom]> (<["max" := vmax]> (<["min" := vmin]>
     (with_line x y fields edge_count)))) !! k = fields !! k.
Proof.
  intros. unfold with_line. destruct edge_count; by simplify_map_eq.
Qed.

Lemma lookup_base_fields (x y : list F) edge_count vmin vmax vcom k :
  k ≠ "com" → k ≠ "max" → k ≠ "min" → k ≠ "lin_bkg" →
  (<["com" := vcom]> (<["max" := vmax]> (<["min" := vmin]>
     (with_line x y stats_fields0 edge_count)))) !! k = stats_fields0 !! k.
Proof. apply lookup_base. Qed.



(** ** Lookup by key *)

Lemma compute_keeps_fields s : _stats_fields (compute s).2 = _stats_fields s.
Proof.
  rewrite compute_run. cbn zeta. case_decide; [done|].
  destruct (_calc_stats (collected s).*1 _ _ _); [|done].
  destruct (compute_derivative s); [|done].
  by destruct (_calc_stats (Np.slice_from 1 (collected s).*1) _ _ _).
Qed.

Lemma init_fields x0 y0 edge_count d :
  _stats_fields (__init__ (F := F) x0 y0 edge_count d) = stats_fields0
  ∧ attrs (__init__ (F := F) x0 y0 edge_count d) = stats_fields0.
Proof.
  unfold __init__. cbn zeta. rewrite reset_loop. cbn [snd].
  destruct d; cbn; by rewrite (right_id_L ∅ (∪)).
Qed.

Lemma record_crossings_other cs (fields : gmap string value) k :
  k ≠ "cen" → k ≠ "crossings" → k ≠ "fwhm" →
  record_crossings cs fields !! k = fields !! k.
Proof.
  intros. unfold record_crossings. destruct cs; [done|].
  case_decide; by simplify_map_eq.
Qed.

Lemma compute_lin_attrs s :
  _stats_fields s = stats_fields0 →
  attrs (compute s).2 !! "lin_bkg" = attrs s !! "lin_bkg"
  ∧ attrs (compute s).2 !! "lin_bnk" = Some VNone.
Proof.
  intros Hsf. destruct ((collected s).*1) as [|x1 xs1] eqn:Hxs.
  - rewrite compute_run. cbn zeta. rewrite Hxs, decide_True by done.
    cbn. rewrite Hsf, !lookup_union.
    change (stats_fields0 !! "lin_bkg") with (@None value).
    change (stats_fields0 !! "lin_bnk") with (Some (@VNone F)).
    split; [by destruct (attrs s !! "lin_bkg")|by destruct (attrs s !! "lin_bnk")].
  - destruct (attrs_after_compute s) as (vmin & vmax & vcom & -> & _).
    { by rewrite Hxs. }
    rewrite Hsf. split.
    + rewrite lookup_copied_None by done. rewrite lookup_union.
      change (stats_fields0 !! "lin_bkg") with (@None value).
      by destruct (attrs s !! "lin_bkg").
    + rewrite (lookup_copied _ _ _ _ VNone); [|done|];
        rewrite record_crossings_other, lookup_base_fields by done; [done|eauto].
Qed.

(** C2: on a PeakStats object built with an edge count, before and after a
    run is computed, the key "lin_bkg" is no stats field: looking it up
    raises KeyError, the object has no attribute of that name, and the field
    the object does have is "lin_bnk", which stays unset; whereas
    [_calc_stats] does record the slope and intercept of the line under
    "lin_bkg" in the result it returns. *)
Theorem lin_bkg_lookup_raises x0 y0 edge_count d (events : list (gmap string F)) :
  let s0 := __init__ x0 y0 (Some edge_count) d in
  let s' := (stop events s0).2 in
  __getitem__ "lin_bkg" s0 = (Raise KeyError, s0)
  ∧ __getitem__ "lin_bkg" s' = (Raise KeyError, s')
  ∧ attrs s' !! "lin_bkg" = None
  ∧ __getitem__ "lin_bnk" s' = (Ret VNone, s')
  ∧ (∀ x y fields stats,
       _calc_stats x y fields (Some edge_count) = Ret stats →
       stats !! "lin_bkg"
       = Some (VLine (edge_line x y edge_count).1 (edge_line x y edge_count).2)).
Proof.
  intros s0 s'.
  destruct (init_fields x0 y0 (Some edge_count) d) as [Hsf0 Hat0].
  fold s0 in Hsf0, Hat0.
  assert (_stats_fields s' = stats_fields0) as Hsf'.
  { unfold s', stop. run. by rewrite compute_keeps_fields. }
  destruct (compute_lin_attrs (set__events events s0) Hsf0) as [Hbkg Hbnk].
  assert ((stop events s0).2 = (compute (set__events events s0)).2) as Hstop
    by (unfold stop; by run).
  fold s' in Hstop. rewrite <- Hstop in Hbkg, Hbnk. cbn in Hbkg.
  rewrite Hat0 in Hbkg.
  assert (∀ s, _stats_fields s = stats_fields0 →
               __getitem__ "lin_bkg" s = (Raise KeyError, s)) as Hraise.
  { intros s Hs. unfold __getitem__. run. rewrite Hs.
    by rewrite decide_False by (by apply not_elem_of_dom). }
  split; [by apply Hraise|]. split; [by apply Hraise|]. split; [done|]. split.
  - unfold __getitem__. run. rewrite Hsf'.
    rewrite decide_True by (apply elem_of_dom; by eexists).
    unfold getattr. by rewrite Hbnk.
  - intros x y fields stats Hcalc.
    destruct (used_y x y (Some edge_count)) as [|v0 y0'] eqn:Hy.
    + by rewrite calc_stats_empty in Hcalc.
    + destruct (calc_stats_run x y fields (Some edge_count))
        as (vmin & vmax & vcom & Heq).
      { by rewrite Hy. }
      rewrite Heq in Hcalc. injection Hcalc as <-.
      rewrite record_crossings_other by done. unfold with_line.
      by simplify_map_eq.
Qed.

End WithNumpy.

(** ** The theorems at work on a run *)


End PeakStatsFacts.

(** * More on LiveFit: binding, runs, stop *)

Module LiveFitMore.
Import LiveFit LiveFitFacts.

Section WithTypes.
Context {Scalar FitResult : Type}.
Local Abbreviation self := (LiveFit.self Scalar FitResult).
Implicit Types (s : self) (data : gmap string Scalar).

(** Rebinding the independent variables (the setter, lines 54-64, with
    [_reset]): a binding whose roles are not those of the model is refused
    with ValueError and the coordinator, its data included, is untouched; an
    accepted binding, be it the one already in place, discards the
    dependent samples, the result and the stale flag and leaves one empty
    series per role. *)
Theorem rebinding_checks_roles_and_resets val s :
  (dom val ≠ list_to_set (model_independent_vars (_model s)) →
     set_independent_vars val s = (Raise ValueError, s))
  ∧ (dom val = list_to_set (model_independent_vars (_model s)) →
     ∃ s', set_independent_vars val s = (Ret tt, s')
           ∧ _independent_vars s' = val
           ∧ independent_vars_data s' = (λ _, []) <$> val
           ∧ ydata s' = [] ∧ result s' = None ∧ stale s' = false
           ∧ effects s' = effects s).
Proof.
  rewrite set_independent_vars_run. split; intros Hdom.
  - by rewrite decide_True.
  - rewrite decide_False by (by intros ?). eexists. split; [reflexivity|].
    cbn. repeat split. by rewrite <- map_fmap_compose.
Qed.

(** A run holds its own samples only: after [start] and the events of a run,
    whatever the coordinator had accumulated before, the dependent series is
    the list of the dependent values of the run's events, in order, and the
    series of each role is the list of the values of its field in the same
    events. *)
Theorem run_holds_only_its_samples s evs :
  bound s → Forall (well_formed s) evs → update_every s ≠ Some 0%Z →
  ∃ s', deliver (Start :: (Event <$> evs)) s = (Ret tt, s')
        ∧ ydata s' = samples (y s) evs
        ∧ independent_vars_data s'
          = (λ f, column (y s) f evs) <$> _independent_vars s.
Proof.
  intros Hb Hwf Hu. exists (foldl after_event (cleared s) evs).
  split; [|split].
  - rewrite deliver_start. apply deliver_events;
      [by apply cleared_bound|by apply cleared_well_formed|by left].
  - by rewrite foldl_after_event_ydata by (by apply cleared_well_formed).
  - by apply cleared_series.
Qed.

(** ** Events that trigger no fit *)

Lemma after_event_quiet s data :
  well_formed s data →
  fit_now (update_every s) (N_of s) (S (length (ydata s))) = false →
  effects (after_event s data) = effects s
  ∧ result (after_event s data) = result s
  ∧ stale (after_event s data) = (if data !! y s is Some _ then true else stale s).
Proof.
  intros Hwf Hno. unfold after_event, fit_now in *.
  destruct (data !! y s) as [yv|] eqn:Hy; [|done].
  rewrite decide_True by (apply Hwf; eauto).
  cbn [update_every N_of _model ydata set_stale stored
       set_independent_vars_data set_ydata].
  rewrite length_app, Nat.add_1_r. cbn [length].
  by destruct (decision _ _ _) as [[]|].
Qed.

Lemma foldl_after_event_quiet evs s :
  Forall (well_formed s) evs →
  (∀ i, length (ydata s) < i ≤ length (ydata s) + length (samples (y s) evs) →
        fit_now (update_every s) (N_of s) i = false) →
  let s' := foldl after_event s evs in
  effects s' = effects s
  ∧ result s' = result s
  ∧ stale s' = (if samples (y s) evs is [] then stale s else true).
Proof.
  revert s. induction evs as [|data evs IH]; intros s Hwf Hno; [done|].
  apply Forall_cons in Hwf as [Hd Hwf].
  pose proof (after_event_config s data) as Hc.
  pose proof (after_event_ydata s data Hd) as Hy.
  rewrite samples_cons, length_app in Hno. rewrite samples_cons.
  cbn [foldl]. cbn zeta.
  destruct (IH (after_event s data)) as (He & Hr & Hs).
  { by eapply Forall_well_formed_config. }
  { intros i Hi. rewrite (N_of_config _ _ Hc).
    destruct Hc as (_ & Hyn & _ & _ & ->). rewrite Hyn in Hi. apply Hno.
    rewrite Hy, length_app in Hi. lia. }
  rewrite He, Hr, Hs. clear He Hr Hs IH.
  destruct Hc as (_ & -> & _).
  destruct (data !! y s) as [yv|] eqn:Hyv.
  - destruct (after_event_quiet s data Hd) as (-> & -> & ->).
    { apply Hno. cbn. lia. }
    rewrite Hyv. cbn. by destruct (samples (y s) evs).
  - assert (after_event s data = s) as ->; [|done].
    unfold after_event. by rewrite Hyv.
Qed.

(** With [update_every = None] the events of a run call neither [model.fit]
    nor [warnings.warn], whatever their number: the result stays None, and
    the stale flag is up as soon as one event carried the dependent field.
    The fit is left to [stop]. *)
Theorem no_fit_before_stop_when_never s evs :
  bound s → update_every s = None → Forall (well_formed s) evs →
  ∃ s', deliver (Start :: (Event <$> evs)) s = (Ret tt, s')
        ∧ effects s' = effects s
        ∧ result s' = None
        ∧ stale s' = (if samples (y s) evs is [] then false else true).
Proof.
  intros Hb Hu Hwf. exists (foldl after_event (cleared s) evs). split.
  - rewrite deliver_start. apply deliver_events;
      [by apply cleared_bound|by apply cleared_well_formed|].
    left. change (update_every (cleared s)) with (update_every s). by rewrite Hu.
  - apply (foldl_after_event_quiet evs (cleared s));
      [by apply cleared_well_formed|].
    intros i _. change (update_every (cleared s)) with (update_every s).
    by rewrite Hu.
Qed.

(** A run too short to fit: with fewer events carrying the dependent field
    than the model has free parameters, whatever [update_every] is, the run
    is delivered to the end without a call of [model.fit]; [stop] emits the
    one warning of the run if there was a sample and nothing if there was
    none; the result is None, and the stale flag stays up after the
    warning. *)
Theorem short_run_only_warns_at_stop s evs :
  bound s → Forall (well_formed s) evs →
  length (samples (y s) evs) < N_of s →
  ∃ s', deliver (Start :: (Event <$> evs) ++ [Stop]) s = (Ret tt, s')
        ∧ result s' = None
        ∧ effects s' = effects s
                       ++ (if samples (y s) evs is [] then [] else [EWarn (N_of s)])
        ∧ stale s' = (if samples (y s) evs is [] then false else true).
Proof.
  intros Hb Hwf Hlt. set (s2 := foldl after_event (cleared s) evs).
  assert (deliver (Event <$> evs) (cleared s) = (Ret tt, s2)) as Hrun.
  { apply deliver_events; [by apply cleared_bound|by apply cleared_well_formed|].
    right. cbn. change (y (cleared s)) with (y s).
    change (N_of (cleared s)) with (N_of s). lia. }
  destruct (foldl_after_event_quiet evs (cleared s)) as (He & Hr & Hs).
  { by apply cleared_well_formed. }
  { intros i Hi. cbn in Hi. change (y (cleared s)) with (y s) in Hi.
    change (N_of (cleared s)) with (N_of s). unfold fit_now, decision.
    destruct (update_every (cleared s)); [|done]. by rewrite decide_True by lia. }
  fold s2 in He, Hr, Hs. cbn in He, Hr, Hs.
  change (y (cleared s)) with (y s) in Hs.
  assert (ydata s2 = samples (y s) evs) as Hy.
  { unfold s2. by rewrite foldl_after_event_ydata by (by apply cleared_well_formed). }
  assert (N_of s2 = N_of s) as HN
    by apply (N_of_config _ _ (foldl_after_event_config evs (cleared s))).
  rewrite deliver_start, (deliver_app _ [Stop] _ _ Hrun), run_deliver_cons.
  cbn [dispatch]. rewrite stop_run, Hs.
  destruct (samples (y s) evs) as [|y1 ys] eqn:Hsam.
  - exists s2. by rewrite app_nil_r.
  - rewrite update_fit_short by (rewrite Hy, HN; exact Hlt).
    eexists. split; [reflexivity|]. cbn. by rewrite He, Hr, Hs, HN.
Qed.

(** [stop] is done once: when the coordinator is not stale, or has the
    samples for a fit, a second [stop] returns with the coordinator as the
    first one left it, without another call of [model.fit].  A stale
    coordinator with too few samples stays stale, and every [stop] warns
    again. *)
Theorem second_stop_does_nothing s :
  (stale s = false ∨ N_of s ≤ length (ydata s) →
     stop (stop s).2 = (Ret tt, (stop s).2))
  ∧ (stale s = true → length (ydata s) < N_of s →
     stop s = (Ret tt, emit (EWarn (N_of s)) s)
     ∧ stop (stop s).2 = (Ret tt, emit (EWarn (N_of s)) (emit (EWarn (N_of s)) s))).
Proof.
  split.
  - intros Hs. rewrite (stop_run s).
    destruct (stale s) eqn:Hst.
    + destruct Hs as [?|Hlen]; [done|].
      rewrite update_fit_enough by done. cbn [snd]. by rewrite stop_run.
    + cbn [snd]. by rewrite stop_run, Hst.
  - intros Hst Hlt. rewrite (stop_run s), Hst, update_fit_short by done.
    split; [done|]. cbn [snd]. rewrite stop_run. cbn [stale emit].
    rewrite Hst. by rewrite update_fit_short by done.
Qed.

(** ** What [model.fit] is called with *)

Lemma kwargs_paired s : aligned s → paired (EFit (ydata s) (kwargs_of s)).
Proof.
  intros Hal k xs. unfold kwargs_of. rewrite lookup_union, !lookup_fmap.
  destruct (init_guess s !! k) as [g|]; cbn.
  - by destruct (independent_vars_data s !! k).
  - destruct (independent_vars_data s !! k) as [v|] eqn:Hk; [|done]. cbn.
    intros [= <-]. exact (Hal k v Hk).
Qed.

Lemma dispatch_aligned doc s : bound s → aligned s → aligned (dispatch doc s).2.
Proof.
  intros Hb Hal. destruct doc as [|data|]; cbn [dispatch].
  - rewrite start_run. apply cleared_aligned.
  - rewrite event_run by done. by apply after_event_aligned.
  - by apply after_stop_aligned.
Qed.

Lemma dispatch_paired doc s :
  bound s → aligned s →
  ∃ t, effects (dispatch doc s).2 = effects s ++ t ∧ Forall paired t.
Proof.
  intros Hb Hal. destruct doc as [|data|]; cbn [dispatch].
  - exists []. rewrite start_run. cbn. by rewrite app_nil_r.
  - rewrite event_run by done. cbn [snd]. unfold after_event.
    destruct (data !! y s) as [yv|]; [|exists []; by rewrite app_nil_r].
    case_decide; [|exists []; by rewrite app_nil_r].
    pose proof (aligned_stored yv (fields data s) s Hal) as Hal'.
    destruct (decision _ _ _) as [[]|];
      [|exists []; cbn; by rewrite app_nil_r..].
    eexists [_]. split; [reflexivity|]. apply Forall_singleton.
    by apply (kwargs_paired (set_stale true (stored yv (fields data s) s))).
  - rewrite stop_run. destruct (stale s); [|exists []; by rewrite app_nil_r].
    rewrite update_fit_run. cbn [snd]. case_decide.
    + eexists [_]. split; [reflexivity|]. by apply Forall_singleton.
    + eexists [_]. split; [reflexivity|]. apply Forall_singleton.
      by apply kwargs_paired.
Qed.

(** The arrays of a fit pair up: in any delivery of documents to a
    coordinator whose series are aligned, every call of [model.fit] receives,
    for each role it is given a series for, a series of the length of the
    dependent samples of that call. *)
Theorem fit_arguments_pair_up s docs :
  bound s → aligned s →
  ∃ t, effects (deliver docs s).2 = effects s ++ t ∧ Forall paired t.
Proof.
  revert s. induction docs as [|doc docs IH]; intros s Hb Hal.
  { exists []. cbn. by rewrite app_nil_r. }
  rewrite run_deliver_cons.
  destruct (dispatch_keeps doc s Hb) as [Hb1 _].
  pose proof (dispatch_aligned doc s Hb Hal) as Hal1.
  destruct (dispatch_paired doc s Hb Hal) as (t1 & Ht1 & Hp1).
  destruct (dispatch doc s) as [[[]|e] s1]; cbn [snd] in *.
  - destruct (IH s1 Hb1 Hal1) as (t2 & Ht2 & Hp2).
    exists (t1 ++ t2). rewrite Ht2, Ht1, <- app_assoc. split; [done|].
    by apply Forall_app.
  - by exists t1.
Qed.

Lemma due_opp N k i : due N (- k) i = due N k i.
Proof.
  unfold due. do 2 f_equal. apply bool_decide_ext.
  destruct (decide (k = 0%Z)) as [->|Hk]; [done|].
  rewrite !Z.mod_divide by lia. apply Z.divide_opp_l.
Qed.

(** A negative [update_every] is accepted as it is and gives the cadence of
    its absolute value: Python's modulo by a negative number is zero for the
    same dividends. *)
Theorem negative_update_every_counts_as_positive s evs k :
  bound s → update_every s = Some k → (k < 0)%Z →
  Forall (well_formed s) evs →
  ∃ s', deliver (Start :: (Event <$> evs)) s = (Ret tt, s')
        ∧ fit_counts (effects s')
          = fit_counts (effects s)
            ++ filter (due (N_of s) (Z.abs k)) (seq 1 (length (samples (y s) evs))).
Proof.
  intros Hb Hu Hk Hwf. exists (foldl after_event (cleared s) evs). split.
  - rewrite deliver_start. apply deliver_events;
      [by apply cleared_bound|by apply cleared_well_formed|].
    left. change (update_every (cleared s)) with (update_every s).
    rewrite Hu. intros [= ->]. lia.
  - destruct (foldl_after_event_counts evs (cleared s)) as [-> _];
      [by apply cleared_well_formed|].
    change (update_every (cleared s)) with (update_every s). rewrite Hu.
    f_equal. apply filter_ext_seq. intros i _.
    rewrite fit_now_due by lia.
    rewrite <- (due_opp _ (Z.abs k)). f_equal. lia.
Qed.

End WithTypes.

(** ** The theorems at work on a coordinator *)

Lemma rebinding_checks_roles_and_resets_witness :
  set_independent_vars {["t" := "clock"]} (set_ydata [7%Z] (Demo.coordinator None))
  = (Raise ValueError, set_ydata [7%Z] (Demo.coordinator None)).
Proof.
  apply (rebinding_checks_roles_and_resets {["t" := "clock"]}
           (set_ydata [7%Z] (Demo.coordinator None))).
  vm_compute. discriminate.
Defined.

Lemma run_holds_only_its_samples_witness :
  ∃ s', deliver (Start :: (Event <$> Demo.four_readings))
          (set_ydata [7%Z] (Demo.coordinator (Some 1%Z))) = (Ret tt, s')
        ∧ ydata s' = [1; 2; 3; 4]%Z
        ∧ independent_vars_data s' = {["x" := [10; 20; 30; 40]%Z]}.
Proof.
  destruct (run_holds_only_its_samples
              (set_ydata [7%Z] (Demo.coordinator (Some 1%Z))) Demo.four_readings)
    as (s' & Hrun & Hy & Hser).
  - vm_compute. reflexivity.
  - repeat constructor; apply (demo_well_formed (Some 1%Z)).
  - discriminate.
  - exists s'. split; [exact Hrun|]. split; [exact Hy|].
    rewrite Hser. vm_compute. reflexivity.
Defined.

Lemma no_fit_before_stop_when_never_witness :
  ∃ s', deliver (Start :: (Event <$> Demo.four_readings)) (Demo.coordinator None)
        = (Ret tt, s')
        ∧ effects s' = [] ∧ result s' = None ∧ stale s' = true.
Proof.
  destruct (no_fit_before_stop_when_never (Demo.coordinator None) Demo.four_readings)
    as (s' & Hrun & He & Hr & Hs).
  - apply demo_bound.
  - reflexivity.
  - apply demo_four_well_formed.
  - exists s'. split; [exact Hrun|]. split; [exact He|]. split; [exact Hr|exact Hs].
Defined.

Lemma short_run_only_warns_at_stop_witness :
  ∃ s', deliver (Start :: (Event <$> [Demo.reading 10 1]) ++ [Stop])
          (Demo.coordinator (Some 1%Z)) = (Ret tt, s')
        ∧ result s' = None ∧ effects s' = [EWarn 2] ∧ stale s' = true.
Proof.
  destruct (short_run_only_warns_at_stop (Demo.coordinator (Some 1%Z))
              [Demo.reading 10 1])
    as (s' & Hrun & Hr & He & Hs).
  - apply demo_bound.
  - repeat constructor; apply demo_well_formed.
  - vm_compute. lia.
  - exists s'. split; [exact Hrun|]. split; [exact Hr|]. split; [exact He|exact Hs].
Defined.

Lemma second_stop_does_nothing_witness :
  stop (stop (set_stale true (set_ydata [1; 2]%Z (Demo.coordinator None)))).2
  = (Ret tt, (stop (set_stale true (set_ydata [1; 2]%Z (Demo.coordinator None)))).2).
Proof.
  apply (second_stop_does_nothing
           (set_stale true (set_ydata [1; 2]%Z (Demo.coordinator None)))).
  right. vm_compute. lia.
Defined.

Lemma fit_arguments_pair_up_witness :
  ∃ t, effects (deliver (Start :: (Event <$> Demo.four_readings) ++ [Stop])
                  (Demo.coordinator (Some 1%Z))).2 = [] ++ t
       ∧ Forall paired t.
Proof.
  apply (fit_arguments_pair_up (Demo.coordinator (Some 1%Z))).
  - apply demo_bound.
  - intros k v Hk. cbn in Hk. apply lookup_singleton_Some in Hk as [_ <-].
    reflexivity.
Defined.

Lemma negative_update_every_counts_as_positive_witness :
  ∃ s', deliver (Start :: (Event <$> Demo.four_readings))
          (Demo.coordinator (Some (-2)%Z)) = (Ret tt, s')
        ∧ fit_counts (effects s') = [2; 3].
Proof.
  destruct (negative_update_every_counts_as_positive
              (Demo.coordinator (Some (-2)%Z)) Demo.four_readings (-2)%Z)
    as (s' & Hrun & Hfits).
  - apply demo_bound.
  - reflexivity.
  - lia.
  - apply demo_four_well_formed.
  - exists s'. split; [exact Hrun|]. rewrite Hfits. vm_compute. reflexivity.
Defined.

End LiveFitMore.

(** * More on PeakStats: empty and short runs, lookup, recomputation *)

Module PeakStatsMore.
Import PeakStats PeakStatsFacts.

Section WithNumpy.
Context {F : Type} {np : Np.Numpy F}.
Local Abbreviation self := (self F).
Local Abbreviation value := (value F).

Implicit Types (s : self).

Lemma stats_fields0_unset k (v : value) : stats_fields0 !! k = Some v → v = VNone.
Proof.
  unfold stats_fields0. rewrite !lookup_insert_Some, lookup_empty. naive_solver.
Qed.

Lemma dom_stats_fields0 : dom (stats_fields0 (F := F)) = list_to_set stats_names.
Proof.
  unfold stats_fields0, stats_names. rewrite !dom_insert_L, dom_empty_L.
  cbn. set_solver.
Qed.

Lemma stats_names_fields k :
  k ∈ stats_names ↔ is_Some (stats_fields0 (F := F) !! k).
Proof. rewrite <- elem_of_dom, dom_stats_fields0. set_solver. Qed.

(** A run without a usable event (no event, or none with both fields):
    [compute] returns normally, every stats field is back to None, and the
    derivative stats and the data arrays of an earlier run are left as they
    were. *)
Theorem empty_run_unsets_the_fields s :
  _stats_fields s = stats_fields0 → collected s = [] →
  ∃ s', compute s = (Ret tt, s')
        ∧ (∀ k, k ∈ stats_names → attrs s' !! k = Some VNone)
        ∧ der s' = der s ∧ x_data s' = x_data s ∧ y_data s' = y_data s.
Proof.
  intros Hsf Hnil. rewrite compute_run. cbn zeta. rewrite Hnil. cbn.
  eexists. split; [reflexivity|]. cbn. split; [|done].
  intros k [v Hk]%stats_names_fields. rewrite Hsf, lookup_union, Hk.
  apply stats_fields0_unset in Hk as ->. by destruct (attrs s !! k).
Qed.

(** ** Events without the two fields *)

Lemma collected_filter s (events : list (gmap string F)) :
  collected (set__events (filter (has_both s) events) s)
  = collected (set__events events s).
Proof.
  unfold collected. cbn. induction events as [|data events IH]; [done|].
  rewrite filter_cons. case_decide as Hboth.
  - cbn. by rewrite IH.
  - rewrite IH. cbn. unfold has_both in Hboth.
    destruct (data !! x s), (data !! y s); try done.
    exfalso. apply Hboth. eauto.
Qed.

(** The events that lack the x or the y field do not count: a run gives the
    same outcome, stats fields, derivative stats and data arrays as the run
    without them. *)
Theorem events_without_both_fields_are_ignored s (events : list (gmap string F)) :
  let r := stop events s in
  let r' := stop (filter (has_both s) events) s in
  r.1 = r'.1 ∧ attrs r.2 = attrs r'.2 ∧ der r.2 = der r'.2
  ∧ x_data r.2 = x_data r'.2 ∧ y_data r.2 = y_data r'.2.
Proof.
  unfold stop. run. rewrite !compute_run. cbn zeta.
  rewrite collected_filter.
  cbn [_stats_fields _edge_count compute_derivative attrs set__events].
  case_decide; [done|].
  destruct (_calc_stats (collected (set__events events s)).*1 _ _ _); [|done].
  destruct (compute_derivative s); [|done].
  by destruct (_calc_stats (Np.slice_from 1 (collected (set__events events s)).*1) _ _ _).
Qed.

(** ** When [compute] raises *)

(** [compute] raises in one case only: the derivative is asked for and the
    run has exactly one usable sample, so that the differences are empty and
    [np.argmin] raises ValueError; the stats fields of the sample itself are
    set by then.  In every other case it returns normally. *)
Theorem compute_raises_on_a_single_sample_derivative s :
  (compute s).1
  = (if compute_derivative s
     then if decide (length (collected s) = 1%nat) then Raise ValueError else Ret tt
     else Ret tt).
Proof.
  rewrite compute_run. cbn zeta.
  pose proof (collected_lengths s) as Hlen.
  assert (length (collected s).*1 = length (collected s)) as Hx
    by (by rewrite length_fmap).
  case_decide as Hnil.
  { cbn. destruct (compute_derivative s); [|done].
    by rewrite decide_False by lia. }
  destruct (calc_stats_run (collected s).*1 (collected s).*2
              (_stats_fields s) (_edge_count s))
    as (vmin & vmax & vcom & ->).
  { apply used_y_nonempty; [done|]. by destruct (collected s).*1. }
  cbn zeta. destruct (compute_derivative s); [|done].
  set (x_der := Np.slice_from 1 (collected s).*1).
  set (y_der := Np.diff (collected s).*2).
  assert (length (used_y x_der y_der (_edge_count s))
          = (length (collected s) - 1)%nat) as Hder.
  { rewrite length_used_y; unfold x_der, y_der;
      rewrite ?length_diff, ?length_slice_from_1; lia. }
  case_decide as Hone.
  - rewrite calc_stats_empty; [done|].
    apply length_zero_iff_nil. lia.
  - destruct (calc_stats_run x_der y_der
                (<["y" := VArr y_der]> (<["x" := VArr x_der]> (_stats_fields s)))
                (_edge_count s))
      as (? & ? & ? & ->); [|done].
    intros Hnil'. rewrite Hnil' in Hder. cbn in Hder. lia.
Qed.

(** ** Lookup by key over the life of an object *)

Lemma dom_copied (fields stats attrs0 : gmap string value) :
  dom attrs0 ⊆ dom (copied fields stats attrs0).
Proof. unfold copied. rewrite dom_union. set_solver. Qed.

Lemma compute_keeps_attrs s :
  dom (_stats_fields s) ⊆ dom (attrs (compute s).2).
Proof.
  rewrite compute_run. cbn zeta.
  assert (dom (_stats_fields s) ⊆ dom (_stats_fields s ∪ attrs s)) as Hsub
    by (rewrite dom_union; set_solver).
  case_decide; [done|].
  destruct (_calc_stats (collected s).*1 _ _ _) as [stats|e]; [|done].
  assert (dom (_stats_fields s)
          ⊆ dom (copied (_stats_fields s) stats (_stats_fields s ∪ attrs s))) as Hsub'
    by (etrans; [exact Hsub|apply dom_copied]).
  destruct (compute_derivative s); [|done].
  by destruct (_calc_stats (Np.slice_from 1 (collected s).*1) _ _ _).
Qed.

Lemma after_runs_fields runs s :
  _stats_fields s = stats_fields0 → dom (stats_fields0 (F := F)) ⊆ dom (attrs s) →
  _stats_fields (after_runs runs s) = stats_fields0
  ∧ dom (stats_fields0 (F := F)) ⊆ dom (attrs (after_runs runs s)).
Proof.
  revert s. induction runs as [|events runs IH]; intros s Hsf Hat; [done|].
  cbn [after_runs foldl]. apply IH.
  - unfold stop. run. by rewrite compute_keeps_fields.
  - unfold stop. run. rewrite <- Hsf.
    apply (compute_keeps_attrs (set__events events s)).
Qed.

(** Lookup by key on a PeakStats object, fresh or after any number of runs:
    for the seven names of the stats fields it returns the value of the
    attribute of that name and never fails; for any other key it raises
    KeyError; the object is not changed. *)
Theorem getitem_knows_the_seven_names x0 y0 edge_count d
    (runs : list (list (gmap string F))) key :
  let s := after_runs runs (__init__ x0 y0 edge_count d) in
  (key ∈ stats_names →
     ∃ v, __getitem__ key s = (Ret v, s) ∧ attrs s !! key = Some v)
  ∧ (key ∉ stats_names → __getitem__ key s = (Raise KeyError, s)).
Proof.
  intros s.
  destruct (init_fields (F := F) x0 y0 edge_count d) as [Hsf0 Hat0].
  destruct (after_runs_fields runs (__init__ x0 y0 edge_count d)) as [Hsf Hat];
    [done|by rewrite Hat0|]. fold s in Hsf, Hat.
  unfold __getitem__. run. rewrite Hsf, dom_stats_fields0. split; intros Hkey.
  - rewrite decide_True by set_solver.
    assert (is_Some (attrs s !! key)) as [v Hv].
    { apply elem_of_dom, Hat. rewrite dom_stats_fields0. set_solver. }
    exists v. unfold getattr. by rewrite Hv.
  - by rewrite decide_False by set_solver.
Qed.

(** ** Computing again *)

Lemma copied_again (fields stats attrs0 : gmap string value) :
  copied fields stats (fields ∪ copied fields stats (fields ∪ attrs0))
  = copied fields stats (fields ∪ attrs0).
Proof.
  apply map_eq. intros k. unfold copied.
  rewrite !lookup_union, !map_lookup_imap.
  destruct (fields !! k); cbn; by destruct (stats !! k), (attrs0 !! k).
Qed.

(** [compute] is idempotent: computing again over the same events gives the
    same outcome and leaves the object exactly as the first computation
    did. *)
Theorem compute_again_changes_nothing s :
  compute (compute s).2 = compute s.
Proof.
  rewrite (compute_run s). cbn zeta. case_decide as Hnil.
  - cbn [snd]. rewrite compute_run. cbn zeta.
    change (collected (set_attrs (_stats_fields s ∪ attrs s) s)) with (collected s).
    rewrite decide_True by done. cbn.
    by rewrite (assoc_L (∪)), (idemp_L (∪)).
  - destruct (_calc_stats (collected s).*1 (collected s).*2 _ _) as [stats|e] eqn:Hcalc.
    + assert (∀ s1 : self,
                collected s1 = collected s →
                _stats_fields s1 = _stats_fields s →
                _edge_count s1 = _edge_count s →
                compute_derivative s1 = compute_derivative s →
                attrs s1 = copied (_stats_fields s) stats (_stats_fields s ∪ attrs s) →
                compute s1
                = (if compute_derivative s
                   then match _calc_stats (Np.slice_from 1 (collected s).*1)
                                (Np.diff (collected s).*2)
                                (<["y" := VArr (Np.diff (collected s).*2)]>
                                   (<["x" := VArr (Np.slice_from 1 (collected s).*1)]>
                                      (_stats_fields s)))
                                (_edge_count s) with
                        | Ret d0 =>
                          (Ret tt,
                           set_der (Some (Some d0))
                             (set_attrs (attrs s1)
                                (set_data (collected s).*1 (collected s).*2 s1)))
                        | Raise e =>
                          (Raise e,
                           set_attrs (attrs s1)
                             (set_data (collected s).*1 (collected s).*2 s1))
                        end
                   else (Ret tt,
                         set_attrs (attrs s1)
                           (set_data (collected s).*1 (collected s).*2 s1))))
        as Hagain.
      { intros s1 Hc Hf He Hd Ha. rewrite compute_run. cbn zeta.
        rewrite Hc, Hf, He, Hd, decide_False, Hcalc by done.
        cbn [attrs set_attrs].
        assert (copied (_stats_fields s) stats (_stats_fields s ∪ attrs s1)
                = attrs s1) as ->
          by (rewrite Ha; apply copied_again).
        destruct (compute_derivative s); [|done].
        by destruct (_calc_stats (Np.slice_from 1 (collected s).*1) _ _ _). }
      cbn zeta. destruct (compute_derivative s) eqn:Hd.
      * destruct (_calc_stats (Np.slice_from 1 (collected s).*1) _ _ _) as [d0|e] eqn:Hder.
        -- cbn [snd]. rewrite Hagain by done. done.
        -- cbn [snd]. rewrite Hagain by done. done.
      * cbn [snd]. by rewrite Hagain by done.
    + cbn [snd]. rewrite compute_run. cbn zeta.
      change (collected (set_data _ _ _)) with (collected s).
      rewrite decide_False by done. cbn [_stats_fields _edge_count set_data set_attrs].
      rewrite Hcalc. cbn. by rewrite (assoc_L (∪)), (idemp_L (∪)).
Qed.

End WithNumpy.

(** ** A flat signal, in exact arithmetic *)

Local Open Scope Q_scope.

Lemma foldl_pick (f : Q → Q → Q) (v : Q) (a : list Q) :
  (∀ m w, f m w = m ∨ f m w = w) → foldl f v a ∈ v :: a.
Proof.
  intros Hf. revert v. induction a as [|w a IH]; intros v; cbn.
  - by left.
  - destruct (Hf v w) as [-> | ->].
    + specialize (IH v). set_solver.
    + right. apply IH.
Qed.

Lemma max_elem (a : list Q) : a ≠ [] → Np.max a ∈ a.
Proof.
  destruct a as [|v a]; [done|]. intros _. apply foldl_pick.
  intros m w. destruct (Np.Exact.Qltb m w); eauto.
Qed.

Lemma min_elem (a : list Q) : a ≠ [] → Np.min a ∈ a.
Proof.
  destruct a as [|v a]; [done|]. intros _. apply foldl_pick.
  intros m w. destruct (Np.Exact.Qltb w m); eauto.
Qed.

Lemma Qltb_false_eq (a b : Q) : a == b → Np.Exact.Qltb a b = false.
Proof.
  intros Hab. unfold Np.Exact.Qltb. apply negb_false_iff, Qle_bool_iff.
  rewrite Hab. apply Qle_refl.
Qed.

Lemma where_nonzero_zeros (a : list Z) i :
  Forall (λ v, v = 0%Z) a → Np.where_nonzero a i = [].
Proof.
  intros Ha. revert i. induction Ha as [|v a -> _ IH]; intros i; [done|].
  cbn. apply IH.
Qed.

Lemma zip_sub_zeros (a b : list Z) :
  Forall (λ v, v = 0%Z) a → Forall (λ v, v = 0%Z) b →
  Forall (λ v, v = 0%Z) (zip_with Z.sub a b).
Proof.
  intros Ha. revert b. induction Ha as [|u a -> _ IH]; intros b Hb; [by constructor|].
  destruct Hb as [|w b -> Hb]; [by constructor|].
  cbn. constructor; [done|by apply IH].
Qed.

Lemma diff_int_zeros (a : list Z) :
  Forall (λ v, v = 0%Z) a → Forall (λ v, v = 0%Z) (Np.diff_int a).
Proof.
  intros Ha. unfold Np.diff_int. apply zip_sub_zeros; [|done].
  destruct Ha; [by constructor|done].
Qed.

(** Samples that all equal [c] have no half-max crossing. *)
Lemma flat_has_no_crossing (x y : list Q) (c : Q) :
  Forall (λ v, v == c) y → half_max_crossings x y = [].
Proof.
  intros Hflat. unfold half_max_crossings.
  destruct (decide (y = [])) as [->|Hne]; [done|].
  assert (Np.max y == c) as Hmax.
  { eapply (proj1 (Forall_forall _ _) Hflat), max_elem, Hne. }
  assert (Np.min y == c) as Hmin.
  { eapply (proj1 (Forall_forall _ _) Hflat), min_elem, Hne. }
  assert ((Np.max y + Np.min y) / 2 == c) as Hmid.
  { rewrite Hmax, Hmin. field. }
  rewrite where_nonzero_zeros; [done|].
  apply diff_int_zeros. unfold Np.above. apply Forall_fmap.
  eapply Forall_impl; [exact Hflat|]. intros v Hv. cbn.
  rewrite Qltb_false_eq; [done|].
  change (inject_Z (Z.of_nat 2)) with 2. by rewrite Hmid, Hv.
Qed.

(** A flat signal has no center: when every usable sample of a run has the
    same ordinate (no background removal), cen, crossings and fwhm are
    None after [compute], whatever an earlier run had left in them. *)
Theorem flat_signal_has_no_center (s : self Q) c :
  _stats_fields s = stats_fields0 → _edge_count s = None →
  collected s ≠ [] → Forall (λ v, v == c) (collected s).*2 →
  attrs (compute s).2 !! "cen" = Some VNone
  ∧ attrs (compute s).2 !! "crossings" = Some VNone
  ∧ attrs (compute s).2 !! "fwhm" = Some VNone.
Proof.
  intros Hsf He Hne Hflat.
  destruct (attrs_after_compute s) as (vmin & vmax & vcom & -> & _).
  { by destruct (collected s). }
  rewrite He, Hsf. unfold used_y.
  rewrite (flat_has_no_crossing _ _ c Hflat). unfold record_crossings.
  repeat split;
    (rewrite (lookup_copied _ _ _ _ VNone); [|done|];
       rewrite lookup_base_fields by done; [done|eauto]).
Qed.

(** ** The extreme samples, in exact arithmetic *)

Lemma Qltb_true (a b : Q) : Np.Exact.Qltb a b = true ↔ a < b.
Proof.
  unfold Np.Exact.Qltb. rewrite negb_true_iff, <- not_true_iff_false, Qle_bool_iff.
  split; [apply Qnot_le_lt|apply Qlt_not_le].
Qed.

Lemma Qltb_false (a b : Q) : Np.Exact.Qltb a b = false ↔ b <= a.
Proof. unfold Np.Exact.Qltb. by rewrite negb_false_iff, Qle_bool_iff. Qed.

Section ArgBest.
Variables (better : Q → Q → bool) (lt le : Q → Q → Prop).
Hypothesis better_true : ∀ w v, better w v = true → lt w v.
Hypothesis better_false : ∀ w v, better w v = false → le v w.
Hypothesis le_refl : ∀ v, le v v.
Hypothesis lt_le : ∀ a b, lt a b → le a b.
Hypothesis lt_le_trans : ∀ a b c, lt a b → le b c → lt a c.

Lemma argbest_spec (l a : list Q) (i best : nat) (v : Q) :
  drop i l = a → (best < i)%nat → l !! best = Some v →
  (∀ j w, (j < i)%nat → l !! j = Some w → le v w) →
  (∀ j w, (j < best)%nat → l !! j = Some w → lt v w) →
  ∃ vr, l !! Np.Exact.argbest better a i best v = Some vr
        ∧ (∀ j w, l !! j = Some w → le vr w)
        ∧ (∀ j w, (j < Np.Exact.argbest better a i best v)%nat → l !! j = Some w → lt vr w).
Proof using All.
  revert i best v. induction a as [|w0 a IH]; intros i best v Hdrop Hlt Hv Hle Hst.
  - exists v. cbn. split; [done|]. split; [|done].
    intros j w Hj. apply (Hle j w); [|done].
    apply drop_nil_inv in Hdrop. apply lookup_lt_Some in Hj. lia.
  - assert (l !! i = Some w0) as Hi.
    { rewrite <- (Nat.add_0_r i), <- lookup_drop, Hdrop. done. }
    assert (drop (S i) l = a) as Hdrop'.
    { rewrite (drop_S _ _ _ Hi) in Hdrop. by injection Hdrop. }
    cbn. destruct (better w0 v) eqn:Hb.
    + apply better_true in Hb. apply (IH (S i) i w0); [done|lia|done| |].
      * intros j w Hj Hw. destruct (decide (j = i)) as [->|Hne].
        -- rewrite Hi in Hw. injection Hw as <-. apply le_refl.
        -- apply lt_le, (lt_le_trans _ v); [done|]. apply (Hle j); [lia|done].
      * intros j w Hj Hw. apply (lt_le_trans _ v); [done|]. by apply (Hle j).
    + apply better_false in Hb. apply (IH (S i) best v); [done|lia|done| |done].
      intros j w Hj Hw. destruct (decide (j = i)) as [->|Hne].
      * rewrite Hi in Hw. by injection Hw as <-.
      * apply (Hle j); [lia|done].
Qed.

End ArgBest.

Lemma argmin_spec (a : list Q) i :
  Np.argmin a = Ret i →
  ∃ v, a !! i = Some v
       ∧ (∀ j w, a !! j = Some w → v <= w)
       ∧ (∀ j w, (j < i)%nat → a !! j = Some w → v < w).
Proof.
  destruct a as [|v0 a]; [done|]. cbn. intros [= <-].
  apply (argbest_spec Np.Exact.Qltb Qlt Qle).
  - intros w v. apply Qltb_true.
  - intros w v. apply Qltb_false.
  - apply Qle_refl.
  - apply Qlt_le_weak.
  - apply Qlt_le_trans.
  - done.
  - lia.
  - done.
  - intros [|j] w Hj Hw; [|lia]. injection Hw as <-. apply Qle_refl.
  - intros j w Hj. lia.
Qed.

Lemma argmax_spec (a : list Q) i :
  Np.argmax a = Ret i →
  ∃ v, a !! i = Some v
       ∧ (∀ j w, a !! j = Some w → w <= v)
       ∧ (∀ j w, (j < i)%nat → a !! j = Some w → w < v).
Proof.
  destruct a as [|v0 a]; [done|]. cbn. intros [= <-].
  apply (argbest_spec (λ w v, Np.Exact.Qltb v w) (λ a b, b < a) (λ a b, b <= a)).
  - intros w v. apply Qltb_true.
  - intros w v. apply Qltb_false.
  - apply Qle_refl.
  - intros a0 b. apply Qlt_le_weak.
  - intros a0 b c Hab Hbc. by apply (Qle_lt_trans _ b).
  - done.
  - lia.
  - done.
  - intros [|j] w Hj Hw; [|lia]. injection Hw as <-. apply Qle_refl.
  - intros j w Hj. lia.
Qed.

(** The min and max fields are the extreme samples: without background
    removal, on non-empty data of finite readings, [_calc_stats] records
    under "min" the abscissa and the ordinate of the first sample whose
    ordinate is the smallest, and under "max" those of the first sample
    whose ordinate is the largest. *)
Theorem min_and_max_are_the_extreme_samples (x y : list Q) fields :
  length x = length y → x ≠ [] →
  ∃ stats imin imax xmin ymin xmax ymax,
    _calc_stats x y fields None = Ret stats
    ∧ stats !! "min" = Some (VPair xmin ymin)
    ∧ x !! imin = Some xmin ∧ y !! imin = Some ymin
    ∧ (∀ j w, y !! j = Some w → ymin <= w)
    ∧ (∀ j w, (j < imin)%nat → y !! j = Some w → ymin < w)
    ∧ stats !! "max" = Some (VPair xmax ymax)
    ∧ x !! imax = Some xmax ∧ y !! imax = Some ymax
    ∧ (∀ j w, y !! j = Some w → w <= ymax)
    ∧ (∀ j w, (j < imax)%nat → y !! j = Some w → w < ymax).
Proof.
  intros Hlen Hx.
  assert (y ≠ []) as Hne by (by destruct x, y).
  destruct (argmin_nonempty y Hne) as [imin Hmin].
  destruct (argmax_nonempty y Hne) as [imax Hmax].
  destruct (argmin_spec y imin Hmin) as (ymin & Hymin & Hmin1 & Hmin2).
  destruct (argmax_spec y imax Hmax) as (ymax & Hymax & Hmax1 & Hmax2).
  destruct (lookup_lt_is_Some_2 x imin) as [xmin Hxmin].
  { rewrite Hlen. by eapply lookup_lt_Some. }
  destruct (lookup_lt_is_Some_2 x imax) as [xmax Hxmax].
  { rewrite Hlen. by eapply lookup_lt_Some. }
  assert (∀ (l : list Q) i v, l !! i = Some v → Np.item l i = v) as Hitem.
  { intros l i v Hv. unfold Np.item. by rewrite nth_lookup, Hv. }
  assert (_calc_stats x y fields None
          = Ret (record_crossings (half_max_crossings x y)
                   (<["com" := VArr ((λ c, Np.interp c (Np.arange (length x)) x)
                                     <$> center_of_mass y)]>
                      (<["max" := VPair xmax ymax]>
                         (<["min" := VPair xmin ymin]> fields))))) as ->.
  { unfold _calc_stats. rewrite Hmin, Hmax.
    rewrite (Hitem _ _ _ Hxmin), (Hitem _ _ _ Hymin),
      (Hitem _ _ _ Hxmax), (Hitem _ _ _ Hymax).
    unfold record_crossings, half_max_crossings. reflexivity. }
  eexists _, imin, imax, xmin, ymin, xmax, ymax. split; [reflexivity|].
  rewrite !record_crossings_other by done.
  split; [by simplify_map_eq|]. do 4 (split; [done|]).
  split; [by simplify_map_eq|]. done.
Qed.

(** ** The theorems at work on a run *)

Lemma min_and_max_are_the_extreme_samples_witness :
  ∃ stats xmin ymin xmax ymax,
    _calc_stats [0; 1; 2; 3] [5; 2; 9; 2] stats_fields0 None = Ret stats
    ∧ stats !! "min" = Some (VPair xmin ymin)
    ∧ stats !! "max" = Some (VPair xmax ymax).
Proof.
  destruct (min_and_max_are_the_extreme_samples [0; 1; 2; 3] [5; 2; 9; 2]
              stats_fields0)
    as (stats & imin & imax & xmin & ymin & xmax & ymax & Hrun & Hmin & _ & _ & _ & _
        & Hmax & _).
  - reflexivity.
  - discriminate.
  - exists stats, xmin, ymin, xmax, ymax. split; [exact Hrun|].
    split; [exact Hmin|exact Hmax].
Defined.

Lemma empty_run_unsets_the_fields_witness :
  ∃ s', compute Demo.lonely = (Ret tt, s')
        ∧ attrs s' !! "cen" = Some VNone ∧ der s' = der Demo.lonely.
Proof.
  destruct (empty_run_unsets_the_fields Demo.lonely) as (s' & Hrun & Hat & Hder & _).
  - vm_compute. reflexivity.
  - vm_compute. reflexivity.
  - exists s'. split; [exact Hrun|]. split; [|exact Hder].
    apply Hat. unfold stats_names.
    repeat first [apply list_elem_of_here | apply list_elem_of_further].
Defined.

Lemma getitem_knows_the_seven_names_witness :
  ∃ v, __getitem__ "fwhm"
         (after_runs [Demo.peak_events] (__init__ "motor" "det" None false))
       = (Ret v, after_runs [Demo.peak_events] (__init__ "motor" "det" None false))
       ∧ attrs (after_runs [Demo.peak_events] (__init__ "motor" "det" None false))
           !! "fwhm" = Some v.
Proof.
  apply (getitem_knows_the_seven_names "motor" "det" None false [Demo.peak_events] "fwhm").
  unfold stats_names.
  repeat first [apply list_elem_of_here | apply list_elem_of_further].
Defined.

Lemma flat_signal_has_no_center_witness :
  attrs (compute Demo.flat).2 !! "cen" = Some VNone
  ∧ attrs (compute Demo.flat).2 !! "crossings" = Some VNone
  ∧ attrs (compute Demo.flat).2 !! "fwhm" = Some VNone.
Proof.
  apply (flat_signal_has_no_center Demo.flat 5).
  - vm_compute. reflexivity.
  - vm_compute. reflexivity.
  - vm_compute. discriminate.
  - vm_compute. repeat constructor.
Defined.

End PeakStatsMore.
